(** * The circular replay buffer of [fabricrl/data/buffers.py]

    A shallow embedding of the class [ReplayBuffer] and of the part of the
    [TensorDict] container and of [torch] it calls, followed by the
    properties of the buffer: cursor arithmetic under wraparound, the
    one-way [full] flag, the rows [sample] can draw and the derivation of
    [next_obs] by index shifting. *)

From stdpp Require Import gmap strings list fin_maps.

(** ** Exceptions

    The Python exception classes the buffer and its collaborators raise.
    A call that raises yields [inl e]; a call that returns yields [inr v]. *)

Inductive exn : Set :=
  | TypeError | RuntimeError | ValueError | IndexError | KeyError
  | ZeroDivisionError.

Definition result (A : Type) : Type := (exn + A)%type.

Definition raise {A : Type} (e : exn) : result A := inl e.
Definition ret {A : Type} (a : A) : result A := inr a.
Definition bind {A B : Type} (m : result A) (k : A → result B) : result B :=
  match m with
  | inl e => inl e
  | inr a => k a
  end.

Notation "'let?' x ':=' m 'in' k" := (bind m (fun x => k))
  (at level 10, x name, m at level 100, k at level 200, only parsing).

(** Python's [a % b] on non-negative integers. *)
Definition py_mod (a b : nat) : result nat :=
  if b =? 0 then raise ZeroDivisionError else ret (a mod b).

(** Python's [range(a, b)]: empty when [b <= a]. *)
Definition range (a b : nat) : list nat := seq a (b - a).

(** ** Keys of field access

    The values a caller can pass as a field name: a string, a tuple of
    strings (a nested key of the container) or an integer. *)

Inductive key : Set :=
  | KStr (s : string)
  | KTuple (path : list string)
  | KInt (n : Z).

Definition isinstance_str (k : key) : bool :=
  match k with
  | KStr _ => true
  | _ => false
  end.

(** ** Source of randomness

    [torch.randint] draws from the global generator; the draw made for
    position [(i, c)] of the requested matrix is read from an oracle
    [rng i c], an arbitrary natural number that [randint] reduces to the
    half-open interval it was asked for. *)

Definition oracle : Type := nat → nat → nat.

(** [torch.randint(low, high, size=(rows, cols))]: raises when the interval
    [[low, high)] is empty. *)
Definition randint (low high rows cols : nat) (rng : oracle)
  : result (list (list nat)) :=
  if high <=? low then raise RuntimeError
  else ret ((λ i, (λ c, low + rng i c mod (high - low)) <$> seq 0 cols)
              <$> seq 0 rows).

(** A tensor of leading shape [[rows, cols]]: a list of rows. An entry of
    type [V] stands for the block of trailing shape [*field_shape] stored at
    one (row, column) position. *)
Abbreviation tensor V := (list (list V)).

Section Buffer.

(** [zero] is the block a freshly allocated field is filled with. *)
Context {V : Type} (zero : V).

Definition zeros (rows cols : nat) : tensor V :=
  replicate rows (replicate cols zero).

(** [x[r, c]], when the position exists. *)
Definition tensor_at (x : tensor V) (r c : nat) : option V :=
  x !! r ≫= (.!! c).

(** [x[idxes] = value]: row [idxes[j]] of [x] becomes row [j] of [value],
    in order. *)
Definition index_put (x : tensor V) (idxes : list nat) (value : tensor V)
  : tensor V :=
  foldl (λ acc ir, <[ir.1 := ir.2]> acc) x (zip idxes value).

(** [x.gather(0, index)]: position [(i, c)] of the result is
    [x[index[i][c], c]]; [None] when some index leaves the tensor. *)
Definition gather_tensor (x : tensor V) (index : list (list nat))
  : option (tensor V) :=
  mapM (λ row, mapM (λ cr, tensor_at x cr.2 cr.1) (imap pair row)) index.

(** [x[index, arange(cols)]]: advanced indexing with the row indices
    [index], of shape [[batch, cols]] as [sample] builds them, against the
    column numbers [0..cols-1]; position [(i, c)] of the result is
    [x[index[i][c], c]]. Index rows of another width do not line up with
    [arange(cols)] (broadcasting of a width of 1 is not modelled: [sample]
    never produces it). *)
Definition index_rows_cols (x : tensor V) (index : list (list nat)) (cols : nat)
  : result (tensor V) :=
  if negb (forallb (λ row : list nat, length row =? cols) index)
  then raise IndexError
  else match mapM (λ row, mapM (λ rc, tensor_at x rc.1 rc.2)
                                 (zip row (seq 0 cols))) index with
       | Some y => ret y
       | None => raise IndexError
       end.

(** [m % c], entry by entry. *)
Definition tensor_mod (m : list (list nat)) (c : nat) : result (list (list nat)) :=
  if c =? 0 then raise RuntimeError
  else ret ((λ row : list nat, (λ x, x mod c) <$> row) <$> m).

(** ** The named field table ([TensorDict])

    [td_shape] is the leading shape ([batch_size], read as [.shape]) shared by
    all fields; [td_items] maps a field name to its tensor. *)

Record TensorDict : Type := mkTensorDict {
  td_shape : list nat;
  td_items : gmap string (tensor V)
}.

(** The class invariant of a two-dimensional [TensorDict]: every field has
    [td_shape[0]] rows of [td_shape[1]] entries. *)
Definition tensor_shape_ok (bs : list nat) (x : tensor V) : Prop :=
  length x = nth 0 bs 0 ∧ Forall (λ row, length row = nth 1 bs 0) x.

Definition td_wf (td : TensorDict) : Prop :=
  map_Forall (λ _ x, tensor_shape_ok (td_shape td) x) (td_items td).

(** One field of [self[idxes, :] = value]: an existing field is written in
    place, a new one is allocated zero-filled and then written; a field the
    payload does not carry is left alone. *)
Definition setitem_field (shape : list nat) (idxes : list nat)
    (old new : option (tensor V)) : option (tensor V) :=
  match new with
  | None => old
  | Some v =>
      Some (index_put (default (zeros (nth 0 shape 0) (nth 1 shape 0)) old)
                      idxes v)
  end.

(** [value.expand(shape)] on batch shapes of the same rank: it goes through
    when every dimension of [value] is the requested one or is 1. *)
Fixpoint expandable (from to : list nat) : bool :=
  match from, to with
  | [], [] => true
  | a :: from, n :: to => ((a =? n) || (a =? 1)) && expandable from to
  | _, _ => false
  end.

(** A field of leading shape [from] after [expand] to the leading shape
    [to]: the single row, and the single entry of a row, are repeated. *)
Definition expand_tensor (from to : list nat) (v : tensor V) : tensor V :=
  let rows := if nth 0 from 0 =? nth 0 to 0 then v
              else flat_map (replicate (nth 0 to 0)) v in
  (λ row, if nth 1 from 0 =? nth 1 to 0 then row
          else flat_map (replicate (nth 1 to 0)) row) <$> rows.

(** [self[idxes, :] = value] for a two-dimensional [self], as [add] calls
    it. [idxes] is the list the index tensor was built from with
    [torch.tensor]. The batch size of [value] is expanded to that of the
    indexed destination, [RuntimeError] when it cannot be. The fields of
    [value] are then written one by one, and it is a field write that raises
    [IndexError]: on the tensor of an empty list, which has dtype float and
    cannot index, and on an index that addresses no row of [self]; a [value]
    without fields is not written at all. Only the exception of a failed
    call is modelled, not the storage it leaves behind: the rows a field
    write has stored in place before it fails are outside this embedding. *)
Definition td_setitem (self : TensorDict) (idxes : list nat) (value : TensorDict)
  : result TensorDict :=
  let indexed_bs := length idxes :: tail (td_shape self) in
  if negb (expandable (td_shape value) indexed_bs) then raise RuntimeError
  else if negb (size (td_items value) =? 0)
          && (bool_decide (idxes = [])
              || negb (forallb (λ i, i <? nth 0 (td_shape self) 0) idxes))
  then raise IndexError
  else ret {| td_shape := td_shape self;
              td_items := merge (setitem_field (td_shape self) idxes)
                             (td_items self)
                             (expand_tensor (td_shape value) indexed_bs
                                <$> td_items value) |}.

(** [torch.gather(self, dim=0, index=index)]: every field is gathered; the
    result has the shape of [index]. *)
Definition td_gather (self : TensorDict) (index : list (list nat))
  : result TensorDict :=
  let g := (λ x, gather_tensor x index) <$> td_items self in
  if bool_decide (map_Forall (λ _ (o : option (tensor V)), is_Some o) g)
  then ret {| td_shape := [length index; length (hd [] index)];
              td_items := omap id g |}
  else raise RuntimeError.

(** ** The buffer *)

Record ReplayBuffer : Type := mkReplayBuffer {
  _buffer_size : nat;
  _n_envs : nat;
  _device : string;
  _buf : TensorDict;
  _pos : nat;
  _full : bool
}.

Definition __init__ (buffer_size n_envs : nat) (device : string) : ReplayBuffer :=
  {| _buffer_size := buffer_size;
     _n_envs := n_envs;
     _device := device;
     _buf := {| td_shape := [buffer_size; n_envs]; td_items := ∅ |};
     _pos := 0;
     _full := false |}.

Definition buffer (self : ReplayBuffer) : TensorDict := _buf self.
Definition buffer_size (self : ReplayBuffer) : nat := _buffer_size self.
Definition full (self : ReplayBuffer) : bool := _full self.
Definition n_envs (self : ReplayBuffer) : nat := _n_envs self.
Definition shape (self : ReplayBuffer) : list nat := td_shape (buffer self).
Definition device (self : ReplayBuffer) : string := _device self.

Definition __len__ (self : ReplayBuffer) : nat := buffer_size self.

(** What [add] can be handed: another buffer, a field table, or anything
    else. *)
Inductive payload : Type :=
  | PReplayBuffer (rb : ReplayBuffer)
  | PTensorDict (td : TensorDict)
  | POther.

Definition add (self : ReplayBuffer) (data : payload) : result ReplayBuffer :=
  let? data :=
    match data with
    | PReplayBuffer rb => ret (buffer rb)
    | PTensorDict td => ret td
    | POther => raise TypeError
    end in
  if negb (length (td_shape data) =? 2) then raise RuntimeError else
  let data_len := nth 0 (td_shape data) 0 in
  let? next_pos := py_mod (_pos self + data_len) (_buffer_size self) in
  let next_pos :=
    if (_pos self =? 0) && (next_pos =? 0) then data_len else next_pos in
  let idxes :=
    if next_pos <? _pos self
    then range (_pos self) (_buffer_size self) ++ range 0 next_pos
    else range (_pos self) next_pos in
  let? buf := td_setitem (_buf self) idxes data in
  let full := if _buffer_size self <=? _pos self + data_len then true
              else _full self in
  ret {| _buffer_size := _buffer_size self;
         _n_envs := _n_envs self;
         _device := _device self;
         _buf := buf;
         _pos := next_pos;
         _full := full |}.


(** Lines 111-122 of [sample]: the checks on [batch_size] and the matrix of
    row indices, one row per draw and one column per environment. *)
Definition draw_idxes (self : ReplayBuffer) (batch_size : Z) (rng : oracle)
  : result (list (list nat)) :=
  let shape0 := nth 0 (td_shape (_buf self)) 0 in
  if (batch_size <=? 0)%Z then raise ValueError else
  if (batch_size >? Z.of_nat shape0)%Z then raise ValueError else
  if _full self then
    let? r := randint 1 (_buffer_size self) (Z.to_nat batch_size) (n_envs self)
                      rng in
    tensor_mod ((λ row : list nat, (λ x, x + _pos self) <$> row) <$> r)
               (_buffer_size self)
  else randint 0 (_pos self) (Z.to_nat batch_size) (n_envs self) rng.

(** [TensorDict.get] and in-place [TensorDict.set] at a string key. Values
    are immutable here, so [clone] is the identity. *)
Definition td_get (self : TensorDict) (name : string) : result (tensor V) :=
  match td_items self !! name with
  | Some x => ret x
  | None => raise KeyError
  end.

Definition td_set_str (self : TensorDict) (name : string) (x : tensor V) : TensorDict :=
  {| td_shape := td_shape self; td_items := <[name := x]> (td_items self) |}.

Definition _get_samples (self : ReplayBuffer) (batch_idxes : list (list nat))
  : result TensorDict :=
  let? buf := td_gather (_buf self) batch_idxes in
  let? obs := td_get (_buf self) "observations" in
  let? next_idxes :=
    tensor_mod ((λ row : list nat, (λ x, x + 1) <$> row) <$> batch_idxes)
               (_buffer_size self) in
  let? next_obs := index_rows_cols obs next_idxes (n_envs self) in
  ret (td_set_str buf "next_obs" next_obs).

Definition sample (self : ReplayBuffer) (batch_size : Z) (rng : oracle)
  : result TensorDict :=
  let? batch_idxes := draw_idxes self batch_size rng in
  _get_samples self batch_idxes.

Definition __getitem__ (self : ReplayBuffer) (k : key) : result (tensor V) :=
  match k with
  | KStr s => td_get (_buf self) s
  | _ => raise TypeError
  end.

(** [__setitem__] hands the key to the container's own [set], whatever the
    key is; [td_set] is that method, with the key handling of the container. *)
Definition __setitem__
    (td_set : TensorDict → key → tensor V → result TensorDict)
    (self : ReplayBuffer) (k : key) (t : tensor V) : result ReplayBuffer :=
  let? buf := td_set (buffer self) k t in
  ret {| _buffer_size := _buffer_size self;
         _n_envs := _n_envs self;
         _device := _device self;
         _buf := buf;
         _pos := _pos self;
         _full := _full self |}.

(** Successive [add] calls, stopping at the first one that raises. *)
Fixpoint add_all (self : ReplayBuffer) (ds : list payload) : result ReplayBuffer :=
  match ds with
  | [] => ret self
  | d :: ds => let? self' := add self d in add_all self' ds
  end.

(** The number of timesteps a payload carries ([data.shape[0]]). *)
Definition data_len (d : payload) : nat :=
  match d with
  | PReplayBuffer rb => nth 0 (td_shape (buffer rb)) 0
  | PTensorDict td => nth 0 (td_shape td) 0
  | POther => 0
  end.

Definition total_len (ds : list payload) : nat := foldr (λ d n, data_len d + n) 0 ds.

End Buffer.

(** ** Specification vocabulary *)

Section Vocabulary.

Context {V : Type}.

(** The table [add] works on after its [isinstance] dispatch. *)
Definition payload_table (d : @payload V) : result (@TensorDict V) :=
  match d with
  | PReplayBuffer rb => ret (buffer rb)
  | PTensorDict td => ret td
  | POther => raise TypeError
  end.

(** The value [add] gives [next_pos] for cursor [pos], [T] new rows and
    capacity [C > 0], and the slots it passes to the indexed assignment. *)
Definition cursor_after (pos T C : nat) : nat :=
  let next_pos := (pos + T) mod C in
  if (pos =? 0) && (next_pos =? 0) then T else next_pos.

Definition slots_written (pos T C : nat) : list nat :=
  let next_pos := cursor_after pos T C in
  if next_pos <? pos then range pos C ++ range 0 next_pos
  else range pos next_pos.

(** Structural invariant of a buffer of capacity [C] over [E] environments:
    the sizes never change and every field has [C] rows. *)
Definition buf_wf (C E : nat) (b : @ReplayBuffer V) : Prop :=
  _buffer_size b = C ∧ _n_envs b = E ∧ td_shape (_buf b) = [C; E] ∧
  map_Forall (λ _ (x : tensor V), length x = C) (td_items (_buf b)).

(** Cursor invariant after [n] timesteps have been written in total. *)
Definition cursor_inv (C n : nat) (b : @ReplayBuffer V) : Prop :=
  _pos b ≤ n ∧
  (0 < C → _pos b mod C = n mod C) ∧
  (0 < C → (_full b = true ↔ C ≤ n)) ∧
  (_full b = false → _pos b = n).

(** A payload row as it is stored over [E] columns: as it is when it has [E]
    entries, with its entry repeated [E] times when it has one. *)
Definition expand_row (E : nat) (row : list V) : list V :=
  if length row =? E then row else flat_map (replicate E) row.

(** The rows a payload carries for field [f], and the payloads that are
    well-formed tables carrying [f]. *)
Definition field_rows (f : string) (d : @payload V) : tensor V :=
  match payload_table d with
  | inr td => default [] (td_items td !! f)
  | inl _ => []
  end.

Definition carries (f : string) (d : @payload V) : Prop :=
  ∃ td, payload_table d = inr td ∧ td_wf td ∧ is_Some (td_items td !! f).

(** Field [f] of the buffer starts with the rows [pre], [n] of them. *)
Definition starts_with (f : string) (n : nat) (pre : tensor V)
    (b : @ReplayBuffer V) : Prop :=
  match td_items (_buf b) !! f with
  | Some y => take n y = pre
  | None => n = 0 ∧ pre = []
  end.

(** Every index of a matrix of drawn rows satisfies [P]. *)
Definition all_idxes (P : nat → Prop) (m : list (list nat)) : Prop :=
  Forall (Forall P) m.

End Vocabulary.

(** ** Concrete buffers and payloads (capacity 4, one environment) *)

Definition obs_rows (l : list Z) : @payload Z :=
  PTensorDict {| td_shape := [length l; 1];
                 td_items := {[ "observations"%string := map (λ n, [n]) l ]} |}.

(** The table inside [obs_rows l]. *)
Definition obs_table (l : list Z) : @TensorDict Z :=
  {| td_shape := [length l; 1];
     td_items := {[ "observations"%string := map (λ n, [n]) l ]} |}.

Definition fresh4 : @ReplayBuffer Z := __init__ 4 1 "cpu".

(** One timestep over two environments. *)
Definition two_envs_row : @TensorDict Z :=
  {| td_shape := [1; 2];
     td_items := {[ "observations"%string := [[1; 2]%Z] ]} |}.

(** A fresh buffer over two environments, and one timestep over a single
    environment. *)
Definition fresh4x2 : @ReplayBuffer Z := __init__ 4 2 "cpu".

Definition one_env_row : @TensorDict Z :=
  {| td_shape := [1; 1];
     td_items := {[ "observations"%string := [[7%Z]] ]} |}.

(** The buffer of scenario 2: rows 0..3 added one at a time, then row 4,
    which overwrote slot 0. *)
Definition wrapped4 : @ReplayBuffer Z :=
  {| _buffer_size := 4;
     _n_envs := 1;
     _device := "cpu";
     _buf := {| td_shape := [4; 1];
                td_items :=
                  {[ "observations"%string := [[4]; [1]; [2]; [3]]%Z ]} |};
     _pos := 1;
     _full := true |}.

(** The buffer of scenario 1: rows 0..3 added one at a time. *)
Definition filled4 : @ReplayBuffer Z :=
  {| _buffer_size := 4;
     _n_envs := 1;
     _device := "cpu";
     _buf := {| td_shape := [4; 1];
                td_items :=
                  {[ "observations"%string := [[0]; [1]; [2]; [3]]%Z ]} |};
     _pos := 0;
     _full := true |}.

(** Three rows written, one slot left; and a payload of one timestep that
    carries a field the buffer does not have yet. *)
Definition three_then_one : @ReplayBuffer Z :=
  {| _buffer_size := 4;
     _n_envs := 1;
     _device := "cpu";
     _buf := {| td_shape := [4; 1];
                td_items :=
                  {[ "observations"%string := [[0]; [1]; [2]; [0]]%Z ]} |};
     _pos := 3;
     _full := false |}.

Definition reward_table : @TensorDict Z :=
  {| td_shape := [1; 1]; td_items := {[ "rewards"%string := [[5%Z]] ]} |}.

Definition reward_row : @payload Z := PTensorDict reward_table.

(** A buffer of one slot after one row, and a buffer that stores rewards
    but no observations. *)
Definition single_slot : @ReplayBuffer Z :=
  {| _buffer_size := 1;
     _n_envs := 1;
     _device := "cpu";
     _buf := {| td_shape := [1; 1];
                td_items := {[ "observations"%string := [[7%Z]] ]} |};
     _pos := 1;
     _full := true |}.

Definition rewards_only : @ReplayBuffer Z :=
  {| _buffer_size := 4;
     _n_envs := 1;
     _device := "cpu";
     _buf := {| td_shape := [4; 1];
                td_items := {[ "rewards"%string := [[5]; [0]; [0]; [0]]%Z ]} |};
     _pos := 1;
     _full := false |}.

Definition one_by_one : list (@payload Z) :=
  [obs_rows [0%Z]; obs_rows [1%Z]; obs_rows [2%Z]; obs_rows [3%Z]].

(** The leading shape of a tensor is that of a two-dimensional table. *)
Definition has_shape (shape : list nat) (t : tensor Z) : bool :=
  (length t =? nth 0 shape 0)
  && forallb (λ row : list Z, length row =? nth 1 shape 0) t.

(** [TensorDict.set] on a table without nested tables: a string or a
    one-component tuple names a field, whose value must have the batch
    shape of the table ([RuntimeError] otherwise); an integer key raises
    [ValueError]. Tables nested in tables are not represented here, so the
    paths of several components, which the library stores as nested keys,
    are left out: they are refused. *)
Definition flat_set (td : @TensorDict Z) (k : key) (t : tensor Z)
  : result (@TensorDict Z) :=
  match k with
  | KStr s | KTuple [s] =>
      if has_shape (td_shape td) t then ret (td_set_str td s t)
      else raise RuntimeError
  | KInt _ => raise ValueError
  | KTuple _ => raise TypeError
  end.

(** ** Properties *)

Section Properties.

Context {V : Type} (zero : V).

Implicit Types (b : @ReplayBuffer V) (td : @TensorDict V) (x v : tensor V).

Lemma bind_inr {A B : Type} (m : result A) (k : A → result B) (r : B) :
  bind m k = inr r → ∃ a, m = inr a ∧ k a = inr r.
Proof. destruct m as [e|a]; simpl; [discriminate | eauto]. Qed.

(** *** Indexed assignment of rows *)

Lemma index_put_length x idxes v : length (index_put x idxes v) = length x.
Proof.
  revert x v. induction idxes as [|i idxes IH]; intros x [|r v]; try done.
  unfold index_put in *. simpl. rewrite IH. apply length_insert.
Qed.

Lemma index_put_notin x idxes v i :
  i ∉ idxes → index_put x idxes v !! i = x !! i.
Proof.
  revert x v. induction idxes as [|a idxes IH]; intros x [|r v] Hi; try done.
  apply not_elem_of_cons in Hi as [Hne Hi].
  unfold index_put in *. simpl. rewrite IH by done.
  by apply list_lookup_insert_ne.
Qed.

Lemma index_put_lookup x idxes v i j :
  NoDup idxes → idxes !! j = Some i → i < length x → j < length v →
  index_put x idxes v !! i = v !! j.
Proof.
  revert x v j. induction idxes as [|a idxes IH]; intros x [|r v] j Hnd Hj Hi Hv;
    try done; simpl in Hv; try lia.
  apply NoDup_cons in Hnd as [Ha Hnd].
  destruct j as [|j]; simpl in *.
  - injection Hj as ->.
    change (index_put (<[i:=r]> x) idxes v !! i = Some r).
    rewrite index_put_notin by done.
    by apply list_lookup_insert_eq.
  - change (index_put (<[a:=r]> x) idxes v !! i = v !! j).
    apply IH; [done | done | by rewrite length_insert | lia].
Qed.

(** *** Indexed assignment on the field table *)

Lemma td_setitem_inr td idxes value td' :
  td_setitem zero td idxes value = inr td' →
  expandable (td_shape value) (length idxes :: tail (td_shape td)) = true ∧
  (td_items value ≠ ∅ →
   idxes ≠ [] ∧ Forall (λ i, i < nth 0 (td_shape td) 0) idxes) ∧
  td_shape td' = td_shape td ∧
  td_items td' =
    merge (setitem_field zero (td_shape td) idxes) (td_items td)
          (expand_tensor (td_shape value) (length idxes :: tail (td_shape td))
             <$> td_items value).
Proof.
  unfold td_setitem.
  destruct (expandable _ _) eqn:He; simpl; [|discriminate].
  destruct (size (td_items value) =? 0) eqn:Hsz; simpl.
  - apply Nat.eqb_eq, map_size_empty_iff in Hsz.
    intros [= <-]. simpl. by repeat split.
  - apply Nat.eqb_neq in Hsz.
    case_bool_decide as Hnil; simpl; [discriminate|].
    destruct (forallb _ idxes) eqn:Hb; simpl; [|discriminate].
    intros [= <-]. simpl. repeat split; try done.
    apply Forall_forall. intros i Hi.
    rewrite forallb_forall in Hb. apply Nat.ltb_lt, Hb.
    by apply list_elem_of_In.
Qed.

Lemma td_setitem_lookup td idxes value td' f :
  td_setitem zero td idxes value = inr td' →
  td_items td' !! f =
    setitem_field zero (td_shape td) idxes (td_items td !! f)
      (expand_tensor (td_shape value) (length idxes :: tail (td_shape td))
         <$> td_items value !! f).
Proof.
  intros (_ & _ & _ & ->)%td_setitem_inr. rewrite lookup_merge, lookup_fmap.
  by destruct (td_items td !! f), (td_items value !! f).
Qed.

(** *** One call of [add] *)

Lemma add_inr b d b' :
  add zero b d = inr b' →
  ∃ td buf,
    payload_table d = inr td ∧ length (td_shape td) = 2 ∧ 0 < _buffer_size b ∧
    td_setitem zero (_buf b)
      (slots_written (_pos b) (data_len d) (_buffer_size b)) td = inr buf ∧
    b' = {| _buffer_size := _buffer_size b;
            _n_envs := _n_envs b;
            _device := _device b;
            _buf := buf;
            _pos := cursor_after (_pos b) (data_len d) (_buffer_size b);
            _full := if _buffer_size b <=? _pos b + data_len d then true
                     else _full b |}.
Proof.
  unfold add. intros (td & Htd & H)%bind_inr.
  assert (payload_table d = inr td ∧ data_len d = nth 0 (td_shape td) 0)
    as [Hp Hlen].
  { destruct d; simpl in *; try discriminate; by injection Htd as ->. }
  destruct (length (td_shape td) =? 2) eqn:Hrank; simpl in H; [|discriminate].
  apply Nat.eqb_eq in Hrank.
  apply bind_inr in H as (np & Hmod & H). unfold py_mod in Hmod.
  destruct (_buffer_size b =? 0) eqn:HC; [discriminate|].
  apply Nat.eqb_neq in HC. injection Hmod as <-.
  apply bind_inr in H as (buf & Hset & H). injection H as <-.
  exists td, buf. rewrite Hlen.
  repeat split; [done | done | lia | exact Hset].
Qed.

Lemma payload_table_len d td :
  payload_table d = inr td → data_len d = nth 0 (td_shape td) 0.
Proof. destruct d; simpl; try discriminate; by intros [= ->]. Qed.

Lemma add_unfold b d td :
  payload_table d = inr td → length (td_shape td) = 2 → 0 < _buffer_size b →
  add zero b d =
  bind (td_setitem zero (_buf b)
          (slots_written (_pos b) (data_len d) (_buffer_size b)) td)
       (λ buf, ret {| _buffer_size := _buffer_size b;
                      _n_envs := _n_envs b;
                      _device := _device b;
                      _buf := buf;
                      _pos := cursor_after (_pos b) (data_len d) (_buffer_size b);
                      _full := if _buffer_size b <=? _pos b + data_len d
                               then true else _full b |}).
Proof.
  intros Hd Hrank HC. rewrite (payload_table_len _ _ Hd).
  unfold add, slots_written, cursor_after, py_mod.
  replace (match d with
           | PReplayBuffer rb => ret (buffer rb)
           | PTensorDict td0 => ret td0
           | POther => raise TypeError
           end) with (@inr exn _ td) by (by destruct d).
  simpl. rewrite Hrank. simpl.
  replace (_buffer_size b =? 0) with false by (symmetry; apply Nat.eqb_neq; lia).
  reflexivity.
Qed.

Lemma expandable_cons a from n to :
  expandable (a :: from) (n :: to) = true ↔
  (a = n ∨ a = 1) ∧ expandable from to = true.
Proof.
  simpl. rewrite andb_true_iff, orb_true_iff, !Nat.eqb_eq. done.
Qed.


Lemma add_buffer_size b d b' :
  add zero b d = inr b' → _buffer_size b' = _buffer_size b ∧ 0 < _buffer_size b.
Proof. intros (td & buf & _ & _ & HC & _ & ->)%add_inr. done. Qed.

Lemma add_buf_wf C E b d b' :
  buf_wf C E b → add zero b d = inr b' → buf_wf C E b'.
Proof.
  intros (HC & HE & Hshape & Hrows) (td & buf & _ & _ & _ & Hset & ->)%add_inr.
  pose proof (td_setitem_inr _ _ _ _ Hset) as (_ & _ & Hshape' & _).
  repeat split; simpl; try done; [congruence|].
  intros f y Hy. rewrite (td_setitem_lookup _ _ _ _ f Hset) in Hy.
  unfold setitem_field in Hy.
  destruct (td_items td !! f) as [v|].
  - injection Hy as <-. rewrite index_put_length.
    destruct (td_items (_buf b) !! f) as [x|] eqn:Hx; simpl.
    + by apply Hrows in Hx.
    + unfold zeros. rewrite length_replicate, Hshape. done.
  - by apply Hrows in Hy.
Qed.

Lemma init_buf_wf C E dev : buf_wf C E (@__init__ V C E dev).
Proof. repeat split. apply map_Forall_empty. Qed.

(** *** Cursor arithmetic *)

Lemma cursor_after_cases pos T C :
  (pos = 0 ∧ T mod C = 0 ∧ cursor_after pos T C = T ∧
   slots_written pos T C = seq 0 T) ∨
  (¬ (pos = 0 ∧ (pos + T) mod C = 0) ∧
   cursor_after pos T C = (pos + T) mod C).
Proof.
  unfold slots_written, cursor_after.
  destruct (pos =? 0) eqn:Hp; simpl.
  - apply Nat.eqb_eq in Hp as ->. simpl.
    destruct (T mod C =? 0) eqn:Hm.
    + apply Nat.eqb_eq in Hm. left. repeat split; try done.
      unfold range. by rewrite Nat.sub_0_r.
    + apply Nat.eqb_neq in Hm. right. split; [tauto | done].
  - apply Nat.eqb_neq in Hp. right. split; [tauto | done].
Qed.

Lemma seq_below_bound T C : Forall (λ i, i < C) (seq 0 T) → T ≤ C.
Proof.
  intros H. destruct T as [|T]; [lia|].
  rewrite Forall_forall in H. specialize (H T).
  enough (T < C) by lia. apply H, elem_of_seq. lia.
Qed.

Lemma mod_zero_le T C : 0 < C → T mod C = 0 → T ≤ C → T = 0 ∨ T = C.
Proof.
  intros HC Hm Hle. destruct (decide (T = C)) as [|Hne]; [by right|left].
  rewrite Nat.mod_small in Hm by lia. done.
Qed.

Lemma add_cursor_inv C n b d b' :
  _buffer_size b = C → cursor_inv C n b → add zero b d = inr b' →
  cursor_inv C (n + data_len d) b'.
Proof.
  intros HC (Hle & Hmod & Hfull & Hpos)
         (td & buf & _ & _ & HC0 & _ & ->)%add_inr.
  rewrite HC in *. specialize (Hmod HC0). specialize (Hfull HC0).
  set (T := data_len d) in *.
  unfold cursor_inv; simpl.
  destruct (cursor_after_cases (_pos b) T C)
    as [(Hp0 & HT & -> & _)|(Hnot & ->)].
  - rewrite Hp0 in *. simpl.
    assert (n mod C = 0) as Hn by (by rewrite <- Hmod, Nat.Div0.mod_0_l).
    assert (T < C → T = 0) as HT0.
    { intros Hlt. by rewrite Nat.mod_small in HT. }
    split; [lia|]. split; [intros _|split; [intros _; split; intros H|intros H]].
    + by rewrite Nat.Div0.add_mod, Hn, HT, Nat.Div0.mod_0_l.
    + destruct (C <=? T) eqn:Hc; [apply Nat.leb_le in Hc; lia|].
      apply Nat.leb_gt in Hc. apply Hfull in H. lia.
    + destruct (C <=? T) eqn:Hc; [done|].
      apply Nat.leb_gt in Hc. apply Hfull. rewrite (HT0 Hc) in H. lia.
    + destruct (C <=? T) eqn:Hc; [discriminate|].
      apply Nat.leb_gt in Hc. rewrite <- (Hpos H). by rewrite (HT0 Hc).
  - assert ((_pos b + T) mod C < C) as Hlt by (apply Nat.mod_upper_bound; lia).
    pose proof (Nat.Div0.mod_le (_pos b + T) C) as Hmle.
    split; [lia|]. split; [intros _|split; [intros _; split; intros H|intros H]].
    + rewrite Nat.Div0.mod_mod.
      by rewrite Nat.Div0.add_mod, Hmod, <- Nat.Div0.add_mod.
    + destruct (C <=? _pos b + T) eqn:Hc.
      * apply Nat.leb_le in Hc.
        destruct (_full b) eqn:Hf.
        -- assert (C ≤ n) by (by apply Hfull). lia.
        -- rewrite <- (Hpos eq_refl). lia.
      * apply Hfull in H. lia.
    + destruct (C <=? _pos b + T) eqn:Hc; [done|].
      apply Nat.leb_gt in Hc.
      destruct (_full b) eqn:Hf; [done|].
      rewrite <- (Hpos eq_refl) in H. lia.
    + destruct (C <=? _pos b + T) eqn:Hc; [discriminate|].
      apply Nat.leb_gt in Hc. rewrite <- (Hpos H).
      by apply Nat.mod_small.
Qed.

Lemma init_cursor_inv C E dev : cursor_inv C 0 (@__init__ V C E dev).
Proof. repeat split; simpl; try done; try lia. Qed.

Lemma add_all_invariants C E ds : ∀ n b b',
  buf_wf C E b → cursor_inv C n b → add_all zero b ds = inr b' →
  buf_wf C E b' ∧ cursor_inv C (n + total_len ds) b'.
Proof.
  induction ds as [|d ds IH]; simpl; intros n b b' Hwf Hinv H.
  - injection H as <-. by rewrite Nat.add_0_r.
  - apply bind_inr in H as (b1 & Hadd & H).
    rewrite Nat.add_assoc.
    eapply IH; [by eapply add_buf_wf| |done].
    eapply add_cursor_inv; [|done|done]. by destruct Hwf.
Qed.

Lemma reachable_invariants C E dev ds b :
  add_all zero (__init__ C E dev) ds = inr b →
  buf_wf C E b ∧ cursor_inv C (total_len ds) b.
Proof.
  intros H.
  by apply (add_all_invariants C E ds 0 _ _ (init_buf_wf C E dev)
              (init_cursor_inv C E dev)).
Qed.

Lemma add_all_nonempty_capacity b d ds b' :
  add_all zero b (d :: ds) = inr b' → 0 < _buffer_size b.
Proof.
  simpl. intros (b1 & Hadd & _)%bind_inr.
  by apply add_buffer_size in Hadd as [_ ?].
Qed.

(** *** The claims on [add], [__len__] and the cursor *)

(** C10: [__len__] returns the capacity given at construction, whatever has
    been added since; it does not follow the fill level. *)
Theorem len_is_capacity C E dev ds b :
  add_all zero (__init__ C E dev) ds = inr b → __len__ b = C.
Proof.
  intros [(HC & _) _]%reachable_invariants. exact HC.
Qed.

(** C3: after a non-empty sequence of successful [add] calls on a fresh
    buffer, [full] holds exactly when the timesteps written so far number at
    least the capacity; and a further successful [add] keeps [full]. *)
Theorem full_iff_capacity_reached C E dev ds b :
  ds ≠ [] → add_all zero (__init__ C E dev) ds = inr b →
  (full b = true ↔ C ≤ total_len ds) ∧
  (∀ d b', full b = true → add zero b d = inr b' → full b' = true).
Proof.
  intros Hne Hrun.
  assert (0 < C) as HC0.
  { destruct ds as [|d ds]; [done|].
    by apply add_all_nonempty_capacity in Hrun. }
  apply reachable_invariants in Hrun as [_ (_ & _ & Hfull & _)].
  split; [by apply Hfull|].
  intros d b' Hb (td & buf & _ & _ & _ & _ & ->)%add_inr.
  unfold full in *. simpl. rewrite Hb. by destruct (_ <=? _).
Qed.

(** *** The claims on the errors of [add] *)

Lemma slots_written_short pos T C :
  0 < C → C < T → ¬ (pos = 0 ∧ (pos + T) mod C = 0) →
  length (slots_written pos T C) < T.
Proof.
  intros HC HT Hnot. unfold slots_written.
  destruct (cursor_after_cases pos T C) as [(Hp & Hm & _)|(_ & ->)].
  { subst pos. tauto. }
  assert ((pos + T) mod C < C) by (apply Nat.mod_upper_bound; lia).
  unfold range. destruct (_ <? pos) eqn:Hlt.
  - apply Nat.ltb_lt in Hlt. rewrite length_app, !length_seq. lia.
  - rewrite length_seq. lia.
Qed.

(** C6 (amended): [add] raises [RuntimeError], the shape error, when the
    payload does not have exactly two batch dimensions, and, on a buffer of
    positive capacity, when its second dimension is neither the environment
    count nor 1; a second dimension of 1 is accepted and broadcast. *)
Theorem add_shape_error C E b d td :
  payload_table d = inr td →
  (length (td_shape td) ≠ 2 → add zero b d = raise RuntimeError) ∧
  (buf_wf C E b → 0 < C →
   nth 1 (td_shape td) 0 ≠ n_envs b → nth 1 (td_shape td) 0 ≠ 1 →
   add zero b d = raise RuntimeError).
Proof.
  intros Hd.
  assert (length (td_shape td) ≠ 2 → add zero b d = raise RuntimeError)
    as Hrank.
  { intros Hrank. unfold add.
    replace (match d with
             | PReplayBuffer rb => ret (buffer rb)
             | PTensorDict td0 => ret td0
             | POther => raise TypeError
             end) with (@inr exn _ td) by (by destruct d).
    simpl. by replace (_ =? 2) with false by (symmetry; by apply Nat.eqb_neq). }
  split; [exact Hrank|].
  intros (HC & HE & Hshape & _) HC0 Henv Hone.
  destruct (decide (length (td_shape td) = 2)) as [Heq|Hne]; [|by apply Hrank].
  rewrite (add_unfold b d td Hd Heq) by lia.
  unfold td_setitem. rewrite Hshape. simpl.
  destruct (td_shape td) as [|a [|e [|? ?]]] eqn:Hs; try discriminate.
  simpl in *. unfold n_envs in Henv. rewrite HE in Henv.
  replace (e =? E) with false by (symmetry; by apply Nat.eqb_neq).
  replace (e =? 1) with false by (symmetry; by apply Nat.eqb_neq).
  simpl. by rewrite andb_false_r.
Qed.

(** C7 (amended): a payload that carries a field and has more timesteps
    than the capacity is never written with wraparound: [add] raises, in
    every buffer state, with [RuntimeError] (the payload cannot be expanded
    to the slots), [IndexError] (a slot past the last row) or, on a buffer
    of capacity 0, [ZeroDivisionError]. *)
Theorem add_longer_than_capacity_raises C E b d td :
  buf_wf C E b → payload_table d = inr td → td_items td ≠ ∅ →
  C < data_len d →
  add zero b d = raise RuntimeError ∨ add zero b d = raise IndexError ∨
  add zero b d = raise ZeroDivisionError.
Proof.
  intros (HC & HE & Hshape & _) Hd Hfields HT.
  destruct (add zero b d) as [e|b'] eqn:Hadd.
  - revert Hadd. unfold add.
    replace (match d with
             | PReplayBuffer rb => ret (buffer rb)
             | PTensorDict td0 => ret td0
             | POther => raise TypeError
             end) with (@inr exn _ td) by (by destruct d).
    simpl. destruct (_ =? 2); simpl; [|intros [= <-]; by left].
    unfold py_mod. destruct (_ =? 0); simpl; [intros [= <-]; by right; right|].
    unfold td_setitem.
    destruct (expandable _ _); simpl; [|intros [= <-]; by left].
    destruct (_ && _); simpl; [intros [= <-]; by right; left|discriminate].
  - exfalso.
    apply add_inr in Hadd as (td' & buf & Hd' & Hrank & HC0 & Hset & _).
    rewrite Hd in Hd'. injection Hd' as <-. rewrite HC in *.
    pose proof (payload_table_len _ _ Hd) as Hlen.
    apply td_setitem_inr in Hset as (He & Hbound & _).
    destruct (Hbound Hfields) as [_ Hb]. rewrite Hshape in Hb. simpl in Hb.
    destruct (td_shape td) as [|a rest]; [discriminate|].
    simpl in Hlen. subst a.
    apply expandable_cons in He as [Ha _].
    destruct (cursor_after_cases (_pos b) (data_len d) C)
      as [(_ & _ & _ & Hslots)|(Hnot & _)].
    + rewrite Hslots in Hb. apply seq_below_bound in Hb. lia.
    + pose proof (slots_written_short (_pos b) (data_len d) C HC0 HT Hnot).
      lia.
Qed.

(** *** The claims on [sample] *)

Lemma randint_inr low high rows cols rng m :
  randint low high rows cols rng = inr m →
  low < high ∧ length m = rows ∧ Forall (λ row, length row = cols) m ∧
  all_idxes (λ r, low ≤ r < high) m.
Proof.
  unfold randint. destruct (high <=? low) eqn:Hle; [discriminate|].
  apply Nat.leb_gt in Hle. intros [= <-].
  split; [done|]. split; [by rewrite length_fmap, length_seq|].
  split.
  - apply Forall_fmap, Forall_forall. intros i _. simpl.
    by rewrite length_fmap, length_seq.
  - apply Forall_fmap, Forall_forall. intros i _. simpl.
    apply Forall_fmap, Forall_forall. intros c _. simpl.
    pose proof (Nat.mod_upper_bound (rng i c) (high - low)). lia.
Qed.

Lemma tensor_mod_inr m c m' :
  tensor_mod m c = inr m' →
  0 < c ∧ m' = (λ row : list nat, (λ a, a mod c) <$> row) <$> m.
Proof.
  unfold tensor_mod. destruct (c =? 0) eqn:Hc; [discriminate|].
  apply Nat.eqb_neq in Hc. intros [= <-]. split; [lia|done].
Qed.

Lemma shifted_residue r p C : 1 ≤ r < C → (r + p) mod C ≠ p mod C.
Proof.
  intros Hr. rewrite <- Nat.Div0.add_mod_idemp_r.
  assert (p mod C < C) as Hq by (apply Nat.mod_upper_bound; lia).
  set (q := p mod C) in *.
  destruct (decide (r + q < C)) as [Hlt|Hge].
  - rewrite Nat.mod_small by done. lia.
  - replace (r + q) with ((r + q - C) + 1 * C) by lia.
    rewrite Nat.Div0.mod_add, Nat.mod_small by lia. lia.
Qed.

Lemma draw_idxes_inr b bs rng idx :
  draw_idxes b bs rng = inr idx →
  length idx = Z.to_nat bs ∧ Forall (λ row, length row = n_envs b) idx ∧
  all_idxes (λ r, r ≠ _pos b ∧
                  if _full b
                  then r < _buffer_size b ∧ r ≠ _pos b mod _buffer_size b
                  else r < _pos b) idx.
Proof.
  unfold draw_idxes. destruct (bs <=? 0)%Z; [discriminate|].
  destruct (bs >? _)%Z; [discriminate|].
  destruct (_full b).
  - intros (r & Hr & Hmod)%bind_inr.
    apply randint_inr in Hr as (HC & Hlen & Hcols & Hr).
    apply tensor_mod_inr in Hmod as (_ & ->).
    split; [by rewrite !length_fmap|]. split.
    + apply Forall_fmap, Forall_fmap.
      eapply Forall_impl; [exact Hcols|]. intros row Hrow. simpl.
      by rewrite !length_fmap.
    + apply Forall_fmap, Forall_fmap.
      eapply Forall_impl; [exact Hr|]. intros row Hrow. simpl.
      apply Forall_fmap, Forall_fmap.
      eapply Forall_impl; [exact Hrow|]. intros a Ha. simpl.
      set (C := _buffer_size b) in *.
      assert ((a + _pos b) mod C < C) by (apply Nat.mod_upper_bound; lia).
      pose proof (shifted_residue a (_pos b) C Ha) as Hne.
      split; [|done]. intros Heq.
      destruct (decide (_pos b < C)) as [Hlt|Hge]; [|by rewrite Heq in H].
      apply Hne. rewrite Heq. symmetry. by apply Nat.mod_small.
  - intros (_ & Hlen & Hcols & Hr)%randint_inr.
    split; [done|]. split; [done|].
    eapply Forall_impl; [exact Hr|]. intros row Hrow. simpl.
    eapply Forall_impl; [exact Hrow|]. intros a Ha. simpl in *. lia.
Qed.

(** C1: in any buffer state, whether [full] or not, a call of [sample] that
    returns has drawn, for every environment column, only row indices other
    than the cursor: other than [pos mod C] and below [C] when [full], below
    [pos] otherwise. *)
Theorem sample_never_draws_pos b bs rng mb :
  sample b bs rng = inr mb →
  ∃ idx, draw_idxes b bs rng = inr idx ∧ _get_samples b idx = inr mb ∧
    length idx = Z.to_nat bs ∧ Forall (λ row, length row = n_envs b) idx ∧
    all_idxes (λ r, r ≠ _pos b ∧
                    if full b
                    then r < buffer_size b ∧ r ≠ _pos b mod buffer_size b
                    else r < _pos b) idx.
Proof.
  unfold sample. intros (idx & Hdraw & Hget)%bind_inr.
  exists idx. split; [done|]. split; [done|].
  by apply draw_idxes_inr in Hdraw.
Qed.

(** C8: on a buffer that holds nothing ([pos = 0], not [full]), [sample]
    raises for every batch size within [(0, C]]: the draw from the empty
    interval [[0, 0)] fails, and no state is changed by the call. *)
Theorem sample_empty_raises C E b bs rng :
  buf_wf C E b → _pos b = 0 → full b = false → (0 < bs ≤ Z.of_nat C)%Z →
  sample b bs rng = raise RuntimeError.
Proof.
  intros (_ & _ & Hshape & _) Hpos Hfull Hbs.
  unfold sample, draw_idxes, full in *. rewrite Hshape, Hpos, Hfull. simpl.
  destruct (bs <=? 0)%Z eqn:H0; [lia|].
  destruct (bs >? Z.of_nat C)%Z eqn:H1; [lia|]. done.
Qed.

Lemma index_rows_cols_inr x index cols y :
  index_rows_cols x index cols = inr y →
  ∀ i c r row, index !! i = Some row → row !! c = Some r →
    ∃ e, tensor_at y i c = Some e ∧ tensor_at x r c = Some e.
Proof.
  unfold index_rows_cols.
  destruct (forallb _ index) eqn:Hw; simpl; [|discriminate].
  destruct (mapM _ index) as [y'|] eqn:Hm; [|discriminate].
  intros [= <-] i c r row Hi Hc.
  apply mapM_Some in Hm.
  destruct (Forall2_lookup_l _ _ _ _ _ Hm Hi) as (yrow & Hy & Hrow).
  apply mapM_Some in Hrow.
  assert (length row = cols) as Hlen.
  { rewrite forallb_forall in Hw. apply Nat.eqb_eq, Hw.
    apply list_elem_of_In, list_elem_of_lookup. eauto. }
  assert (c < cols) as Hlt by (rewrite <- Hlen; by eapply lookup_lt_Some).
  assert (zip row (seq 0 cols) !! c = Some (r, c)) as Hz.
  { rewrite lookup_zip_with, Hc. simpl.
    by rewrite lookup_seq_lt. }
  destruct (Forall2_lookup_l _ _ _ _ _ Hrow Hz) as (e & He & Hat).
  exists e. split; [|exact Hat].
  unfold tensor_at. rewrite Hy. exact He.
Qed.

(** C2: when [sample] returns a minibatch, its [next_obs] field holds, at
    every drawn position (row [r] in column [c]), the entry of the buffer's
    [observations] field at row [(r + 1) mod C] of column [c]. *)
Theorem next_obs_is_shifted_obs b bs rng mb :
  sample b bs rng = inr mb →
  ∃ idx obs nobs,
    draw_idxes b bs rng = inr idx ∧
    td_items (_buf b) !! "observations"%string = Some obs ∧
    td_items mb !! "next_obs"%string = Some nobs ∧
    ∀ i c r, idx !! i ≫= (.!! c) = Some r →
      ∃ e, tensor_at nobs i c = Some e ∧
           tensor_at obs ((r + 1) mod buffer_size b) c = Some e.
Proof.
  unfold sample. intros (idx & Hdraw & Hget)%bind_inr.
  unfold _get_samples in Hget.
  apply bind_inr in Hget as (buf & _ & Hget).
  apply bind_inr in Hget as (obs & Hobs & Hget).
  apply bind_inr in Hget as (next & Hnext & Hget).
  apply bind_inr in Hget as (nobs & Hnobs & Hget).
  injection Hget as <-.
  unfold td_get in Hobs.
  destruct (td_items (_buf b) !! "observations"%string) as [obs'|] eqn:Hl;
    [|discriminate].
  injection Hobs as ->.
  apply tensor_mod_inr in Hnext as (_ & ->).
  exists idx, obs, nobs. split; [done|]. split; [done|].
  split; [apply lookup_insert_eq|].
  intros i c r Hr.
  destruct (idx !! i) as [row|] eqn:Hi; [|discriminate]. simpl in Hr.
  eapply (index_rows_cols_inr _ _ _ _ Hnobs i c).
  - rewrite !list_lookup_fmap, Hi. reflexivity.
  - rewrite !list_lookup_fmap, Hr. reflexivity.
Qed.

(** *** Expansion of a payload *)

Lemma expand_tensor_rows shape n E v :
  nth 0 shape 0 = n → tensor_shape_ok shape v →
  expand_tensor shape [n; E] v = expand_row E <$> v.
Proof.
  intros Hn [_ Hw]. unfold expand_tensor. simpl. rewrite Hn, Nat.eqb_refl.
  apply list_fmap_ext. intros i row Hrow. unfold expand_row.
  by rewrite (Forall_lookup_1 _ _ _ _ Hw Hrow).
Qed.

(** A row that already has [E] entries is stored as it is. *)
Lemma expand_row_same E (row : list V) :
  length row = E → expand_row E row = row.
Proof. intros <-. unfold expand_row. by rewrite Nat.eqb_refl. Qed.

Lemma expand_row_length E e (row : list V) :
  length row = e → e = E ∨ e = 1 → length (expand_row E row) = E.
Proof.
  intros Hlen He. unfold expand_row.
  destruct (length row =? E) eqn:Heq; [by apply Nat.eqb_eq in Heq|].
  apply Nat.eqb_neq in Heq. destruct He as [->| ->]; [done|].
  destruct row as [|a [|? ?]]; try discriminate.
  simpl. by rewrite app_nil_r, length_replicate.
Qed.

(** *** Wraparound after an exact fill *)

Lemma slots_after_fill pos k C :
  0 < k < C → pos = 0 ∨ pos = C →
  cursor_after pos k C = k ∧ slots_written pos k C = seq 0 k.
Proof.
  intros Hk Hpos.
  assert ((pos + k) mod C = k) as Hm.
  { destruct Hpos as [->| ->]; [simpl; apply Nat.mod_small; lia|].
    replace (C + k) with (k + 1 * C) by lia.
    rewrite Nat.Div0.mod_add. apply Nat.mod_small. lia. }
  assert (cursor_after pos k C = k) as Hc.
  { unfold cursor_after. rewrite Hm.
    replace (k =? 0) with false by (symmetry; apply Nat.eqb_neq; lia).
    by rewrite andb_false_r. }
  split; [done|]. unfold slots_written, range. rewrite Hc.
  destruct Hpos as [->| ->].
  - simpl. by rewrite Nat.sub_0_r.
  - replace (k <? C) with true by (symmetry; apply Nat.ltb_lt; lia).
    by rewrite Nat.sub_diag, Nat.sub_0_r.
Qed.

(** C4: once exactly [C] rows have been added to a fresh buffer, a further
    successful [add] of [k] rows, [0 < k < C], leaves the cursor at [k];
    every field of the payload has its rows written to slots [[0, k)], in
    every column (a row of one entry is stored over all [E] columns); every
    field the buffer held keeps its slots from [k] on; and a field the
    payload does not carry is untouched. *)
Theorem add_after_exact_fill C E dev ds b d td b' k :
  add_all zero (__init__ C E dev) ds = inr b → total_len ds = C →
  payload_table d = inr td → td_wf td → data_len d = k → 0 < k < C →
  add zero b d = inr b' →
  _pos b' = k ∧
  (∀ f v, td_items td !! f = Some v →
     ∃ y, td_items (_buf b') !! f = Some y ∧
          ∀ i, i < k → y !! i = expand_row E <$> v !! i) ∧
  (∀ f x, td_items (_buf b) !! f = Some x →
     ∃ y, td_items (_buf b') !! f = Some y ∧ ∀ i, k ≤ i → y !! i = x !! i) ∧
  (∀ f, td_items td !! f = None →
     td_items (_buf b') !! f = td_items (_buf b) !! f).
Proof.
  intros Hrun Htot Hd Hwf Hlen Hk Hadd.
  apply reachable_invariants in Hrun as [Hb (Hle & Hmod & _)].
  rewrite Htot in Hmod, Hle.
  assert (_pos b = 0 ∨ _pos b = C) as Hpos.
  { apply mod_zero_le; [lia| |done].
    rewrite Hmod by lia. apply Nat.Div0.mod_same. }
  destruct Hb as (HC & _ & Hshape & Hrows).
  apply add_inr in Hadd as (td' & buf & Hd' & _ & _ & Hset & ->).
  rewrite Hd in Hd'. injection Hd' as <-.
  rewrite HC, Hlen in Hset. simpl.
  destruct (slots_after_fill (_pos b) k C Hk Hpos) as [Hcur Hslots].
  rewrite Hslots in Hset. rewrite HC, Hlen, Hcur. split; [done|].
  pose proof (λ f, td_setitem_lookup _ _ _ _ f Hset) as Hlook.
  rewrite Hshape in Hlook. simpl in Hlook.
  assert (∀ f, length (default (zeros zero C E) (td_items (_buf b) !! f)) = C)
    as Hold.
  { intros f. destruct (td_items (_buf b) !! f) as [x|] eqn:Hx; simpl.
    - by apply Hrows in Hx.
    - unfold zeros. by rewrite length_replicate. }
  rewrite length_seq in Hlook.
  assert (nth 0 (td_shape td) 0 = k) as Hk0
    by (by rewrite <- (payload_table_len _ _ Hd)).
  repeat split.
  - intros f v Hv. rewrite Hlook, Hv. simpl. eexists. split; [done|].
    intros i Hi.
    rewrite (expand_tensor_rows _ k E v Hk0 (Hwf _ _ Hv)).
    rewrite <- list_lookup_fmap. apply index_put_lookup.
    + apply NoDup_seq.
    + by rewrite lookup_seq_lt.
    + rewrite Hold. lia.
    + apply Hwf in Hv as [Hv _]. by rewrite length_fmap, Hv, Hk0.
  - intros f x Hx. rewrite Hlook, Hx.
    destruct (td_items td !! f) as [v|]; simpl; eexists; (split; [done|]);
      [|done].
    intros i Hi. apply index_put_notin. rewrite elem_of_seq. lia.
  - intros f Hf. by rewrite Hlook, Hf.
Qed.

(** *** Field access *)

(** C9: [__getitem__] raises [TypeError] for every key that is not a
    string, while [__setitem__] carries no check of its own: with a
    container whose [set] takes the key, the value is stored. *)
Theorem setitem_has_no_key_check td_set b k t buf :
  isinstance_str k = false → td_set (buffer b) k t = inr buf →
  __getitem__ b k = raise TypeError ∧
  ∃ b', __setitem__ td_set b k t = inr b' ∧ _buf b' = buf.
Proof.
  intros Hk Hset. split; [by destruct k|].
  unfold __setitem__. rewrite Hset. simpl. eauto.
Qed.

(** *** The slots one call of [add] writes *)

Lemma slots_written_cases pos T C :
  0 < C → pos ≤ C → T < C ∨ (T = C ∧ pos = 0) →
  (pos + T ≤ C ∧ slots_written pos T C = seq pos T) ∨
  (C < pos + T ∧ T < C ∧
   slots_written pos T C = seq pos (C - pos) ++ seq 0 (pos + T - C)).
Proof.
  intros HC Hpos HT. unfold slots_written, range.
  destruct (cursor_after_cases pos T C) as [(-> & Hm & -> & _)|(Hnot & ->)].
  - left. replace (T <? 0) with false by done.
    rewrite Nat.sub_0_r. split; [lia|done].
  - destruct (decide (pos + T < C)) as [Hlt|Hge].
    + left. rewrite (Nat.mod_small _ _ Hlt).
      replace (pos + T <? pos) with false by (symmetry; apply Nat.ltb_ge; lia).
      split; [lia|]. f_equal. lia.
    + assert (T < C ∨ pos = 0 ∧ T = C) as [HTC|[-> ->]] by lia.
      * assert ((pos + T) mod C = pos + T - C) as ->.
        { replace (pos + T) with ((pos + T - C) + 1 * C) at 1 by lia.
          rewrite Nat.Div0.mod_add. apply Nat.mod_small. lia. }
        replace (pos + T - C <? pos) with true
          by (symmetry; apply Nat.ltb_lt; lia).
        destruct (decide (pos + T = C)) as [Heq|Hne].
        -- left. split; [lia|].
           replace (pos + T - C) with 0 by lia. simpl.
           rewrite app_nil_r. f_equal. lia.
        -- right. split; [lia|]. split; [done|]. by rewrite Nat.sub_0_r.
      * exfalso. apply Hnot. split; [done|]. simpl. apply Nat.Div0.mod_same.
Qed.

Lemma slots_written_facts pos T C :
  0 < C → pos ≤ C → T < C ∨ (T = C ∧ pos = 0) →
  length (slots_written pos T C) = T ∧
  Forall (λ i, i < C) (slots_written pos T C) ∧
  NoDup (slots_written pos T C) ∧
  (∀ j, j < T → slots_written pos T C !! j = Some ((pos + j) mod C)) ∧
  (∀ i, i ∈ slots_written pos T C ↔ ∃ j, j < T ∧ i = (pos + j) mod C).
Proof.
  intros HC Hpos HT.
  assert (length (slots_written pos T C) = T ∧
          Forall (λ i, i < C) (slots_written pos T C) ∧
          NoDup (slots_written pos T C) ∧
          ∀ j, j < T → slots_written pos T C !! j = Some ((pos + j) mod C))
    as (Hlen & Hbound & Hnd & Hlook).
  { destruct (slots_written_cases pos T C HC Hpos HT)
      as [(Hle & ->)|(Hgt & HTC & ->)].
    - split; [by rewrite length_seq|]. split.
      { apply Forall_forall. intros i Hi%elem_of_seq. lia. }
      split; [apply NoDup_seq|].
      intros j Hj. rewrite lookup_seq_lt by done.
      f_equal. symmetry. apply Nat.mod_small. lia.
    - split; [rewrite length_app, !length_seq; lia|]. split.
      { apply Forall_app. split; apply Forall_forall;
          intros i Hi%elem_of_seq; lia. }
      split.
      { apply NoDup_app. split; [apply NoDup_seq|].
        split; [|apply NoDup_seq].
        intros i Hi%elem_of_seq Hi'%elem_of_seq. lia. }
      intros j Hj. destruct (decide (j < C - pos)) as [Hlt|Hge].
      + rewrite lookup_app_l by (by rewrite length_seq).
        rewrite lookup_seq_lt by done.
        f_equal. symmetry. apply Nat.mod_small. lia.
      + rewrite lookup_app_r by (rewrite length_seq; lia).
        rewrite length_seq, lookup_seq_lt by lia.
        f_equal. simpl.
        replace (pos + j) with ((pos + j - C) + 1 * C) by lia.
        rewrite Nat.Div0.mod_add, Nat.mod_small by lia. lia. }
  repeat split; try done.
  - intros (j & Hj)%list_elem_of_lookup.
    assert (j < T) as HjT by (rewrite <- Hlen; by eapply lookup_lt_Some).
    exists j. split; [done|]. rewrite Hlook in Hj by done. congruence.
  - intros (j & HjT & ->). apply list_elem_of_lookup. exists j. by apply Hlook.
Qed.

Lemma slots_written_full_off_zero pos C :
  0 < C → 0 < pos → length (slots_written pos C C) < C.
Proof.
  intros HC Hpos. unfold slots_written, range.
  destruct (cursor_after_cases pos C C) as [(-> & _)|(_ & ->)]; [lia|].
  assert ((pos + C) mod C = pos mod C) as ->.
  { replace (pos + C) with (pos + 1 * C) by lia. apply Nat.Div0.mod_add. }
  assert (pos mod C < C) by (apply Nat.mod_upper_bound; lia).
  destruct (_ <? pos) eqn:Hlt.
  - apply Nat.ltb_lt in Hlt. rewrite length_app, !length_seq.
    destruct (decide (pos < C)) as [Hp|Hp]; [|lia].
    rewrite Nat.mod_small in Hlt by done. lia.
  - rewrite length_seq. apply Nat.ltb_ge in Hlt.
    pose proof (Nat.Div0.mod_le pos C). lia.
Qed.

(** What a successful [add] tells about the length of a payload that
    carries a field. *)
Lemma add_inr_len C E b d td b' :
  buf_wf C E b → payload_table d = inr td → td_items td ≠ ∅ →
  add zero b d = inr b' →
  0 < C ∧ 0 < data_len d ∧
  (data_len d < C ∨ (data_len d = C ∧ _pos b = 0)) ∧
  (_pos b ≤ C → td_shape td = [data_len d; nth 1 (td_shape td) 0] ∧
                (nth 1 (td_shape td) 0 = E ∨ nth 1 (td_shape td) 0 = 1)).
Proof.
  intros (HC & _ & Hshape & _) Hd Hfields Hadd.
  apply add_inr in Hadd as (td' & buf & Hd' & Hrank & HC0 & Hset & _).
  rewrite Hd in Hd'. injection Hd' as <-. rewrite HC in *.
  pose proof (payload_table_len _ _ Hd) as Hlen.
  apply td_setitem_inr in Hset as (He & Hbound & _).
  destruct (Hbound Hfields) as [Hne Hb]. rewrite Hshape in Hb, He.
  simpl in Hb, He.
  destruct (td_shape td) as [|a [|e [|? ?]]]; try discriminate.
  simpl in Hlen. subst a.
  apply expandable_cons in He as [Ha He].
  apply expandable_cons in He as [He _].
  set (T := data_len d) in *.
  assert (length (slots_written (_pos b) T C) ≠ 0) as Hnz.
  { intros H0. by apply nil_length_inv in H0. }
  assert (T ≤ C) as HTC.
  { destruct (decide (C < T)) as [Hgt|]; [exfalso|lia].
    destruct (cursor_after_cases (_pos b) T C)
      as [(_ & _ & _ & Hslots)|(Hnot & _)].
    - rewrite Hslots in Hb. apply seq_below_bound in Hb. lia.
    - pose proof (slots_written_short (_pos b) T C HC0 Hgt Hnot). lia. }
  assert (T = C → _pos b = 0) as Hfull.
  { intros ->. destruct (decide (_pos b = 0)) as [|Hp]; [done|exfalso].
    pose proof (slots_written_full_off_zero (_pos b) C HC0 ltac:(lia)). lia. }
  assert (0 < T) as HT0.
  { destruct (decide (T = 0)) as [H0|]; [exfalso|lia]. lia. }
  split; [done|]. split; [done|]. split.
  - destruct (decide (T = C)) as [Heq|]; [right; by auto|left; lia].
  - intros _. simpl. split; [done|]. simpl in He. done.
Qed.

(** *** Further properties of [add] *)


(** X2: a payload of exactly [C] rows is written only at cursor 0. At any
    other cursor the index list [add] builds is shorter than the payload:
    on a buffer of more than one slot [add] raises [RuntimeError], so a
    second whole-capacity [add] right after a first one fails; on a buffer of
    one slot the index list is empty and a payload that carries a field
    raises [RuntimeError] or [IndexError]. *)
Theorem add_full_payload_off_zero b d td :
  payload_table d = inr td → data_len d = _buffer_size b → 0 < _pos b →
  (1 < _buffer_size b → add zero b d = raise RuntimeError) ∧
  (_buffer_size b = 1 → td_items td ≠ ∅ →
   add zero b d = raise RuntimeError ∨ add zero b d = raise IndexError).
Proof.
  intros Hd Hlen Hpos.
  assert (length (td_shape td) ≠ 2 → add zero b d = raise RuntimeError)
    as Hrank.
  { intros Hrank. unfold add.
    replace (match d with
             | PReplayBuffer rb => ret (buffer rb)
             | PTensorDict td0 => ret td0
             | POther => raise TypeError
             end) with (@inr exn _ td) by (by destruct d).
    simpl. by replace (_ =? 2) with false by (symmetry; by apply Nat.eqb_neq). }
  assert (0 < _buffer_size b →
          length (slots_written (_pos b) (data_len d) (_buffer_size b))
          < _buffer_size b) as Hshort.
  { intros HC. rewrite Hlen. by apply slots_written_full_off_zero. }
  pose proof (payload_table_len _ _ Hd) as Hlen0.
  split.
  - intros HC.
    destruct (decide (length (td_shape td) = 2)) as [Heq|]; [|by apply Hrank].
    rewrite (add_unfold b d td Hd Heq) by lia.
    specialize (Hshort ltac:(lia)).
    unfold td_setitem.
    destruct (td_shape td) as [|a rest]; [discriminate|].
    simpl in Hlen0. subst a. simpl.
    replace (data_len d =? _) with false by (symmetry; apply Nat.eqb_neq; lia).
    replace (data_len d =? 1) with false by (symmetry; apply Nat.eqb_neq; lia).
    done.
  - intros HC Hfields.
    destruct (decide (length (td_shape td) = 2)) as [Heq|];
      [|left; by apply Hrank].
    rewrite (add_unfold b d td Hd Heq) by lia.
    specialize (Hshort ltac:(lia)).
    assert (slots_written (_pos b) (data_len d) (_buffer_size b) = []) as ->
      by (apply nil_length_inv; lia).
    unfold td_setitem.
    destruct (expandable _ _); simpl; [|by left].
    apply map_size_non_empty_iff in Hfields.
    replace (size (td_items td) =? 0) with false
      by (symmetry; by apply Nat.eqb_neq).
    simpl. by right.
Qed.

(** X3: a buffer constructed with capacity 0 takes no data: every [add]
    raises, with [ZeroDivisionError] for a two-dimensional table. *)
Theorem add_zero_capacity_raises b d :
  _buffer_size b = 0 →
  (∃ e, add zero b d = raise e) ∧
  (∀ td, payload_table d = inr td → length (td_shape td) = 2 →
         add zero b d = raise ZeroDivisionError).
Proof.
  intros HC. split.
  - destruct (add zero b d) as [e|b'] eqn:Hadd; [by exists e|].
    apply add_buffer_size in Hadd. lia.
  - intros td Hd Hrank. unfold add, py_mod.
    replace (match d with
             | PReplayBuffer rb => ret (buffer rb)
             | PTensorDict td0 => ret td0
             | POther => raise TypeError
             end) with (@inr exn _ td) by (by destruct d).
    simpl. by rewrite Hrank, HC.
Qed.

Lemma lookup_ne_empty (m : gmap string (tensor V)) f v :
  m !! f = Some v → m ≠ ∅.
Proof. intros Hv ->. by rewrite lookup_empty in Hv. Qed.

(** X19: a payload of zero rows that carries a field is refused: the index
    tensor [add] builds from the empty range cannot index, and the field
    write raises [IndexError]. *)
Theorem add_empty_payload_raises C E b d td e :
  buf_wf C E b → 0 < C → _pos b ≤ C →
  payload_table d = inr td → td_shape td = [0; e] → e = E ∨ e = 1 →
  td_items td ≠ ∅ →
  add zero b d = raise IndexError.
Proof.
  intros (HC & HE & Hshape & _) HC0 Hpos Hd Hs He Hfields.
  assert (data_len d = 0) as Hlen
    by (by rewrite (payload_table_len _ _ Hd), Hs).
  rewrite (add_unfold b d td Hd) by (by rewrite ?Hs, ?HC).
  rewrite HC, Hlen.
  assert (slots_written (_pos b) 0 C = []) as ->.
  { destruct (slots_written_cases (_pos b) 0 C HC0 Hpos ltac:(lia))
      as [(_ & ->)|(Hgt & _)]; [done|lia]. }
  unfold td_setitem. rewrite Hshape, Hs. simpl.
  replace ((e =? E) || (e =? 1)) with true.
  2:{ symmetry. destruct He as [->| ->]; [by rewrite Nat.eqb_refl|].
      by rewrite orb_true_r. }
  apply map_size_non_empty_iff in Hfields.
  replace (size (td_items td) =? 0) with false
    by (symmetry; by apply Nat.eqb_neq).
  done.
Qed.

(** X4: a successful [add] writes its payload in order from the cursor on,
    wrapping at the capacity: row [j] of every field of the payload is
    stored at slot [(pos + j) mod C] of that field (a row of one entry is
    stored over all [E] columns). *)
Theorem add_writes_wrapping C E b d td b' :
  buf_wf C E b → _pos b ≤ C → payload_table d = inr td → td_wf td →
  add zero b d = inr b' →
  ∀ f v, td_items td !! f = Some v →
    ∃ y, td_items (_buf b') !! f = Some y ∧
         ∀ j, j < data_len d →
              y !! ((_pos b + j) mod C) = expand_row E <$> v !! j.
Proof.
  intros Hb Hpos Hd Hwf Hadd f v Hv.
  destruct (add_inr_len C E b d td b' Hb Hd (lookup_ne_empty _ _ _ Hv) Hadd)
    as (HC0 & _ & HT & Hs). specialize (Hs Hpos) as [Hs _].
  destruct (slots_written_facts (_pos b) (data_len d) C HC0 Hpos HT)
    as (Hl & Hbound & Hnd & Hlook & _).
  destruct Hb as (HC & _ & Hshape & Hrows).
  apply add_inr in Hadd as (td' & buf & Hd' & _ & _ & Hset & ->).
  rewrite Hd in Hd'. injection Hd' as <-. rewrite HC in Hset. simpl.
  rewrite (td_setitem_lookup _ _ _ _ f Hset), Hv, Hshape, Hl. simpl.
  rewrite (expand_tensor_rows _ (data_len d) E v);
    [|by rewrite Hs|by apply (Hwf f)].
  eexists. split; [done|]. intros j Hj.
  rewrite <- list_lookup_fmap.
  apply index_put_lookup; [done|by apply Hlook| |].
  - assert ((_pos b + j) mod C < C) by (apply Nat.mod_upper_bound; lia).
    destruct (td_items (_buf b) !! f) as [x|] eqn:Hx; simpl.
    + by rewrite (Hrows _ _ Hx).
    + unfold zeros. by rewrite length_replicate.
  - apply Hwf in Hv as [Hv _]. rewrite length_fmap, Hv.
    by rewrite <- (payload_table_len _ _ Hd).
Qed.

(** X5: a successful [add] of [T] rows touches no slot other than
    [(pos + j) mod C] for [j < T]: every field the buffer held is still
    there, with the same rows at all other slots. *)
Theorem add_keeps_other_slots C E b d b' :
  buf_wf C E b → _pos b ≤ C → add zero b d = inr b' →
  ∀ f x, td_items (_buf b) !! f = Some x →
    ∃ y, td_items (_buf b') !! f = Some y ∧
         ∀ i, (∀ j, j < data_len d → i ≠ (_pos b + j) mod C) →
              y !! i = x !! i.
Proof.
  intros Hb Hpos Hadd f x Hx.
  pose proof Hadd as (td & buf & Hd & _ & _ & Hset & ->)%add_inr.
  simpl. rewrite (td_setitem_lookup _ _ _ _ f Hset), Hx.
  destruct (td_items td !! f) as [v|] eqn:Hv; simpl; eexists;
    (split; [done|]); [|done].
  destruct (add_inr_len C E b d td _ Hb Hd (lookup_ne_empty _ _ _ Hv) Hadd)
    as (HC0 & _ & HT & _).
  destruct (slots_written_facts (_pos b) (data_len d) C HC0 Hpos HT)
    as (_ & _ & _ & _ & Hin).
  destruct Hb as (HC & _). rewrite HC.
  intros i Hi. apply index_put_notin.
  intros (j & Hj & ->)%Hin. by apply (Hi j).
Qed.

(** X6: fields are created by [add]: after a successful call the buffer
    holds the fields it had and those of the payload, and a field it did not
    have before has [C] rows, filled with zeros at every slot the call did
    not write. *)
Theorem add_creates_fields C E b d td b' :
  buf_wf C E b → _pos b ≤ C → payload_table d = inr td →
  add zero b d = inr b' →
  dom (td_items (_buf b')) = dom (td_items (_buf b)) ∪ dom (td_items td) ∧
  ∀ f, td_items (_buf b) !! f = None → is_Some (td_items td !! f) →
    ∃ y, td_items (_buf b') !! f = Some y ∧ length y = C ∧
         ∀ i, i < C → (∀ j, j < data_len d → i ≠ (_pos b + j) mod C) →
              y !! i = Some (replicate E zero).
Proof.
  intros Hb Hpos Hd Hadd.
  pose proof Hadd as (td' & buf & Hd' & _ & _ & Hset & Heq)%add_inr.
  rewrite Hd in Hd'. injection Hd' as <-.
  pose proof (λ f, td_setitem_lookup _ _ _ _ f Hset) as Hlook.
  rewrite Heq. simpl. split.
  - apply set_eq. intros f.
    rewrite elem_of_union, !elem_of_dom, Hlook.
    destruct (td_items (_buf b) !! f), (td_items td !! f); simpl;
      split; intros H; try (by eauto); destruct H as [[? ?]|[? ?]]; done.
  - intros f Hf [v Hv].
    destruct (add_inr_len C E b d td b' Hb Hd (lookup_ne_empty _ _ _ Hv) Hadd)
      as (HC0 & _ & HT & _).
    destruct (slots_written_facts (_pos b) (data_len d) C HC0 Hpos HT)
      as (_ & _ & _ & _ & Hin).
    destruct Hb as (HC & _ & Hshape & Hrows).
    rewrite Hlook, Hf, Hv, Hshape, HC. simpl.
    eexists. split; [done|]. split.
    + rewrite index_put_length. unfold zeros. by rewrite length_replicate.
    + intros i Hi Hout. rewrite index_put_notin.
      * unfold zeros. by rewrite lookup_replicate_2.
      * intros (j & Hj & ->)%Hin. by apply (Hout j).
Qed.

Lemma index_put_widths E x idxes v :
  Forall (λ row, length row = E) x → Forall (λ row, length row = E) v →
  Forall (λ row, length row = E) (index_put x idxes v).
Proof.
  revert x v. induction idxes as [|i idxes IH]; intros x [|r v] Hx Hv; try done.
  apply Forall_cons in Hv as [Hr Hv].
  change (Forall (λ row, length row = E) (index_put (<[i:=r]> x) idxes v)).
  apply IH; [by apply Forall_insert|done].
Qed.

Lemma expand_tensor_widths shape n E v :
  length shape = 2 → expandable shape [n; E] = true →
  tensor_shape_ok shape v →
  Forall (λ row, length row = E) (expand_tensor shape [n; E] v).
Proof.
  intros Hrank He [_ Hw].
  destruct shape as [|a [|e [|? ?]]]; try discriminate.
  apply expandable_cons in He as [_ He].
  apply expandable_cons in He as [He _].
  unfold expand_tensor. simpl in *. apply Forall_fmap.
  assert (Forall (λ row : list V, length row = e)
            (if a =? n then v else flat_map (replicate n) v)) as Hrows.
  { destruct (a =? n); [done|].
    apply Forall_flat_map. eapply Forall_impl; [exact Hw|].
    intros row Hrow. by apply Forall_replicate. }
  eapply Forall_impl; [exact Hrows|]. intros row Hrow. simpl.
  rewrite <- Hrow. by apply (expand_row_length E e).
Qed.

(** X7: [add] keeps the table of the buffer in shape: the capacity, the
    environment count, the device and the shape are unchanged, and when the
    payload is a well-formed table every field of the buffer still has [C]
    rows of [E] entries. *)
Theorem add_keeps_shape C E b d td b' :
  buf_wf C E b → td_wf (_buf b) → payload_table d = inr td → td_wf td →
  add zero b d = inr b' →
  buffer_size b' = buffer_size b ∧ n_envs b' = n_envs b ∧
  device b' = device b ∧ shape b' = shape b ∧
  buf_wf C E b' ∧ td_wf (_buf b').
Proof.
  intros Hb Hwf Hd Hp Hadd.
  pose proof (add_buf_wf C E b d b' Hb Hadd) as Hb'.
  destruct Hb as (HC & HE & Hshape & Hrows).
  apply add_inr in Hadd as (td' & buf & Hd' & Hrank & _ & Hset & ->).
  rewrite Hd in Hd'. injection Hd' as <-.
  pose proof (td_setitem_inr _ _ _ _ Hset) as (He & _ & Hshape' & _).
  unfold buffer_size, n_envs, device, shape, buffer. simpl.
  do 3 (split; [done|]). split; [done|]. split; [exact Hb'|].
  intros f y Hy. simpl in *.
  rewrite (td_setitem_lookup _ _ _ _ f Hset) in Hy.
  rewrite Hshape'. unfold setitem_field in Hy.
  destruct (td_items td !! f) as [v|] eqn:Hv; simpl in Hy;
    [|by apply Hwf in Hy].
  injection Hy as <-. rewrite Hshape in *. simpl in *. split.
  - rewrite index_put_length.
    destruct (td_items (_buf b) !! f) as [x|] eqn:Hx; simpl.
    + rewrite (Hrows _ _ Hx). done.
    + unfold zeros. by rewrite length_replicate.
  - apply index_put_widths.
    + destruct (td_items (_buf b) !! f) as [x|] eqn:Hx; simpl.
      * apply Hwf in Hx as [_ Hx]. by rewrite Hshape in Hx.
      * unfold zeros. apply Forall_replicate. by rewrite length_replicate.
    + apply expand_tensor_widths; [done|done|by apply (Hp f)].
Qed.

(** *** Reading back what was written *)

Lemma take_index_put_seq v : ∀ y n,
  n + length v ≤ length y →
  take (n + length v) (index_put y (seq n (length v)) v) = take n y ++ v.
Proof.
  induction v as [|r v IH]; intros y n Hlen; simpl in *.
  - by rewrite Nat.add_0_r, app_nil_r.
  - change (take (n + S (length v))
              (index_put (<[n:=r]> y) (seq (S n) (length v)) v)
            = take n y ++ r :: v).
    replace (n + S (length v)) with (S n + length v) by lia.
    rewrite IH by (rewrite length_insert; lia).
    rewrite (take_S_r _ _ r) by (apply list_lookup_insert_eq; lia).
    rewrite take_insert_ge by done. by rewrite <- app_assoc.
Qed.

Lemma add_starts_with C E f n pre b d b' :
  buf_wf C E b → cursor_inv C n b → n + data_len d ≤ C → carries f d →
  starts_with f n pre b → add zero b d = inr b' →
  starts_with f (n + data_len d)
    (pre ++ (expand_row E <$> field_rows f d)) b'.
Proof.
  intros Hb Hinv Hle (td & Hd & Hwf & [v Hv]) Hpre Hadd.
  destruct (add_inr_len C E b d td b' Hb Hd (lookup_ne_empty _ _ _ Hv) Hadd)
    as (HC0 & HT0 & HT & Hs).
  destruct Hinv as (Hpos & _ & Hfull & Hnf). specialize (Hfull HC0).
  assert (_pos b = n) as Hn.
  { destruct (_full b) eqn:Hf; [|by apply Hnf].
    assert (C ≤ n) by (by apply Hfull). lia. }
  specialize (Hs ltac:(lia)) as [Hs _].
  assert (slots_written (_pos b) (data_len d) C = seq (_pos b) (data_len d))
    as Hslots.
  { assert (_pos b ≤ C) as HpC by lia.
    destruct (slots_written_cases _ _ _ HC0 HpC HT)
      as [(_ & ->)|(Hgt & _)]; [done|]. lia. }
  assert (length v = data_len d) as Hlen.
  { apply Hwf in Hv as [-> _]. by rewrite (payload_table_len _ _ Hd). }
  pose proof (expand_tensor_rows (td_shape td) (data_len d) E v
                ltac:(by rewrite Hs) (Hwf _ _ Hv)) as Hexp.
  destruct Hb as (HC & _ & Hshape & Hrows).
  apply add_inr in Hadd as (td' & buf & Hd' & _ & _ & Hset & ->).
  rewrite Hd in Hd'. injection Hd' as <-.
  rewrite HC, Hslots in Hset.
  unfold starts_with, field_rows in *. simpl. rewrite Hd, Hv. simpl.
  rewrite (td_setitem_lookup _ _ _ _ f Hset), Hv, Hshape. simpl.
  rewrite length_seq, Hexp.
  set (w := expand_row E <$> v).
  assert (length w = data_len d) as Hw by (unfold w; by rewrite length_fmap).
  rewrite <- Hw.
  set (y0 := default (zeros zero C E) (td_items (_buf b) !! f)).
  assert (length y0 = C ∧ take n y0 = pre) as [Hy0 Hy0pre].
  { unfold y0. destruct (td_items (_buf b) !! f) as [y|] eqn:Hy; simpl.
    - split; [by apply Hrows in Hy|done].
    - destruct Hpre as [-> ->]. unfold zeros.
      by rewrite length_replicate. }
  rewrite Hn. rewrite take_index_put_seq by lia. by rewrite Hy0pre.
Qed.

Lemma add_all_starts_with C E f ds : ∀ n pre b b',
  buf_wf C E b → cursor_inv C n b → n + total_len ds ≤ C →
  Forall (carries f) ds → starts_with f n pre b →
  add_all zero b ds = inr b' →
  starts_with f (n + total_len ds)
    (pre ++ (expand_row E <$> concat (field_rows f <$> ds))) b'.
Proof.
  induction ds as [|d ds IH]; simpl; intros n pre b b' Hb Hinv Hle Hc Hpre H.
  - injection H as <-. by rewrite Nat.add_0_r, app_nil_r.
  - apply bind_inr in H as (b1 & Hadd & H).
    apply Forall_cons in Hc as [Hd Hc].
    rewrite Nat.add_assoc, fmap_app, app_assoc.
    eapply (IH _ _ b1); try done.
    + by eapply add_buf_wf.
    + eapply add_cursor_inv; [|done|done]. by destruct Hb.
    + lia.
    + eapply add_starts_with; try done. lia.
Qed.

Lemma add_has_field f b d b' :
  add zero b d = inr b' →
  is_Some (td_items (_buf b) !! f) ∨ carries f d →
  is_Some (td_items (_buf b') !! f).
Proof.
  intros (td & buf & Hd & _ & _ & Hset & ->)%add_inr Hf. simpl.
  rewrite (td_setitem_lookup _ _ _ _ f Hset). unfold setitem_field.
  destruct (td_items td !! f) as [v|] eqn:Hv; [by eexists|].
  destruct Hf as [Hf|(td' & Hd' & _ & Hf)]; [done|].
  rewrite Hd in Hd'. injection Hd' as <-. by rewrite Hv in Hf.
Qed.

Lemma add_all_has_field f ds : ∀ b b',
  add_all zero b ds = inr b' →
  is_Some (td_items (_buf b) !! f) ∨ (ds ≠ [] ∧ Forall (carries f) ds) →
  is_Some (td_items (_buf b') !! f).
Proof.
  induction ds as [|d ds IH]; simpl; intros b b' H Hf.
  - injection H as <-. destruct Hf as [|[? _]]; done.
  - apply bind_inr in H as (b1 & Hadd & H).
    apply (IH b1 b' H). left. apply (add_has_field f b d b1 Hadd).
    destruct Hf as [Hf|[_ Hc]]; [by left|right].
    by apply Forall_cons in Hc as [? _].
Qed.

(** X8: as long as the rows added to a fresh buffer number at most [C], what
    was written reads back unchanged: [self[f]] returns a tensor of [C] rows
    that starts with the rows of field [f] of the payloads, in the order of
    the calls (a row of one entry being stored over all [E] columns). *)
Theorem rows_read_back C E dev ds b f :
  add_all zero (__init__ C E dev) ds = inr b →
  ds ≠ [] → Forall (carries f) ds → total_len ds ≤ C →
  ∃ y, __getitem__ b (KStr f) = inr y ∧ length y = C ∧
       take (total_len ds) y = expand_row E <$> concat (field_rows f <$> ds).
Proof.
  intros Hrun Hne Hc Hle.
  destruct (add_all_has_field f ds _ _ Hrun) as [y Hy]; [by right|].
  pose proof (add_all_starts_with C E f ds 0 [] _ b
                (init_buf_wf C E dev) (init_cursor_inv C E dev) Hle Hc) as Hpre.
  unfold starts_with in Hpre at 1. simpl in Hpre.
  specialize (Hpre (conj eq_refl eq_refl) Hrun).
  unfold starts_with in Hpre. rewrite Hy in Hpre. simpl in Hpre.
  apply reachable_invariants in Hrun as [(_ & _ & _ & Hrows) _].
  exists y. unfold __getitem__, td_get. rewrite Hy.
  split; [done|]. split; [by apply Hrows in Hy|done].
Qed.

(** *** Further properties of [sample] *)

Lemma gather_tensor_Some x index y :
  gather_tensor x index = Some y →
  ∀ i c r, index !! i ≫= (.!! c) = Some r →
    ∃ e, tensor_at y i c = Some e ∧ tensor_at x r c = Some e.
Proof.
  unfold gather_tensor. intros Hm%mapM_Some i c r Hr.
  destruct (index !! i) as [row|] eqn:Hi; [|discriminate]. simpl in Hr.
  destruct (Forall2_lookup_l _ _ _ _ _ Hm Hi) as (yrow & Hy & Hrow).
  apply mapM_Some in Hrow.
  assert (imap pair row !! c = Some (c, r)) as Hz
    by (by rewrite list_lookup_imap, Hr).
  destruct (Forall2_lookup_l _ _ _ _ _ Hrow Hz) as (e & He & Hat).
  exists e. split; [|exact Hat]. unfold tensor_at. by rewrite Hy.
Qed.

Lemma tensor_at_is_Some C E x r c :
  length x = C → Forall (λ row, length row = E) x → r < C → c < E →
  is_Some (tensor_at x r c).
Proof.
  intros Hlen Hw Hr Hc. unfold tensor_at.
  destruct (lookup_lt_is_Some_2 x r ltac:(lia)) as [row Hrow].
  rewrite Hrow. simpl. apply lookup_lt_is_Some_2.
  by rewrite (Forall_lookup_1 _ _ _ _ Hw Hrow).
Qed.

Lemma gather_tensor_is_Some C E x index :
  length x = C → Forall (λ row, length row = E) x →
  all_idxes (λ r, r < C) index → Forall (λ row, length row = E) index →
  is_Some (gather_tensor x index).
Proof.
  intros Hlen Hw Hidx Hcols. unfold gather_tensor.
  apply mapM_is_Some_2, Forall_lookup. intros i row Hi. simpl.
  apply mapM_is_Some_2, Forall_lookup. intros c [c' r] Hc. simpl.
  rewrite list_lookup_imap in Hc.
  destruct (row !! c) as [r'|] eqn:Hr; [|discriminate].
  injection Hc as <- <-.
  eapply tensor_at_is_Some; [done|done| |].
  - apply (Forall_lookup_1 (λ r, r < C) row c r'); [|exact Hr].
    exact (Forall_lookup_1 (Forall (λ r, r < C)) index i row Hidx Hi).
  - rewrite <- (Forall_lookup_1 _ _ _ _ Hcols Hi). by eapply lookup_lt_Some.
Qed.

Lemma index_rows_cols_ok C E x index :
  length x = C → Forall (λ row, length row = E) x →
  all_idxes (λ r, r < C) index → Forall (λ row, length row = E) index →
  ∃ y, index_rows_cols x index E = inr y.
Proof.
  intros Hlen Hw Hidx Hcols. unfold index_rows_cols.
  replace (forallb _ index) with true.
  2:{ symmetry. apply forallb_forall. intros row Hrow%list_elem_of_In.
      apply Nat.eqb_eq. rewrite Forall_forall in Hcols. by apply Hcols. }
  simpl.
  assert (is_Some (mapM (λ row : list nat,
                      mapM (λ rc, tensor_at x rc.1 rc.2) (zip row (seq 0 E)))
                        index)) as [y ->]; [|by eexists].
  apply mapM_is_Some_2, Forall_lookup. intros i row Hi. simpl.
  apply mapM_is_Some_2, Forall_lookup. intros c [r c'] Hc. simpl.
  rewrite lookup_zip_with in Hc.
  destruct (row !! c) as [r'|] eqn:Hr; [|discriminate]. simpl in Hc.
  destruct (seq 0 E !! c) as [c''|] eqn:Hs; [|discriminate].
  injection Hc as <- <-.
  apply lookup_seq in Hs as [-> Hlt].
  eapply tensor_at_is_Some; [done|done| |done].
  apply (Forall_lookup_1 (λ r, r < C) row c r'); [|exact Hr].
  exact (Forall_lookup_1 (Forall (λ r, r < C)) index i row Hidx Hi).
Qed.

Lemma td_gather_inr td index mb :
  td_gather td index = inr mb →
  td_shape mb = [length index; length (hd [] index)] ∧
  (∀ f x, td_items td !! f = Some x → is_Some (gather_tensor x index)) ∧
  ∀ f, td_items mb !! f = td_items td !! f ≫= (λ x, gather_tensor x index).
Proof.
  unfold td_gather. case_bool_decide as Hall; [|discriminate].
  intros [= <-]. simpl. split; [done|]. split.
  - intros f x Hx. apply map_Forall_fmap in Hall. by apply (Hall f x).
  - intros f. rewrite lookup_omap, lookup_fmap.
    by destruct (td_items td !! f).
Qed.

Lemma td_gather_ok td index :
  (∀ f x, td_items td !! f = Some x → is_Some (gather_tensor x index)) →
  ∃ mb, td_gather td index = inr mb.
Proof.
  intros Hall. unfold td_gather.
  rewrite bool_decide_eq_true_2; [by eexists|].
  apply map_Forall_fmap. intros f x Hx. simpl. by eapply Hall.
Qed.

Lemma get_samples_inr b idx mb :
  _get_samples b idx = inr mb →
  ∃ buf obs nobs,
    td_gather (_buf b) idx = inr buf ∧
    td_items (_buf b) !! "observations"%string = Some obs ∧
    mb = td_set_str buf "next_obs" nobs.
Proof.
  unfold _get_samples. intros (buf & Hbuf & H)%bind_inr.
  apply bind_inr in H as (obs & Hobs & H).
  apply bind_inr in H as (next & _ & H).
  apply bind_inr in H as (nobs & _ & H). injection H as <-.
  unfold td_get in Hobs.
  destruct (td_items (_buf b) !! "observations"%string) as [obs'|] eqn:Hl;
    [|discriminate].
  injection Hobs as ->. by exists buf, obs, nobs.
Qed.

(** X9: [sample] raises [ValueError] for a batch size that is not positive
    or exceeds the number of rows of the table, in every buffer state and
    before anything is drawn. *)
Theorem sample_bad_batch_size b bs rng :
  (bs ≤ 0)%Z ∨ (Z.of_nat (nth 0 (shape b) 0%nat) < bs)%Z →
  sample b bs rng = raise ValueError.
Proof.
  intros Hbs. unfold sample, draw_idxes, shape, buffer in *.
  destruct (bs <=? 0)%Z eqn:H0; [done|].
  destruct (bs >? _)%Z eqn:H1; [done|].
  apply Z.leb_gt in H0. rewrite Z.gtb_ltb in H1. apply Z.ltb_ge in H1. lia.
Qed.

(** X10: every field a minibatch takes from the buffer is a gather of that
    field: at position [(i, c)] it holds the entry of the buffer at the drawn
    row [r] of column [c]. *)
Theorem sample_gathers_fields b bs rng mb :
  sample b bs rng = inr mb →
  ∃ idx, draw_idxes b bs rng = inr idx ∧
    ∀ f x, f ≠ "next_obs"%string → td_items (_buf b) !! f = Some x →
      ∃ y, td_items mb !! f = Some y ∧
        ∀ i c r, idx !! i ≫= (.!! c) = Some r →
          ∃ e, tensor_at y i c = Some e ∧ tensor_at x r c = Some e.
Proof.
  unfold sample. intros (idx & Hdraw & Hget)%bind_inr.
  exists idx. split; [done|]. intros f x Hf Hx.
  apply get_samples_inr in Hget as (buf & obs & nobs & Hbuf & _ & ->).
  apply td_gather_inr in Hbuf as (_ & Hall & Hlook).
  simpl. rewrite lookup_insert_ne by done.
  rewrite Hlook, Hx. simpl.
  destruct (Hall f x Hx) as [y Hy]. rewrite Hy.
  exists y. split; [done|]. by apply gather_tensor_Some.
Qed.

Lemma draw_idxes_ok b bs rng :
  (0 < bs ≤ Z.of_nat (nth 0 (td_shape (_buf b)) 0%nat))%Z →
  (if _full b then 1 < _buffer_size b else 0 < _pos b) →
  ∃ idx, draw_idxes b bs rng = inr idx.
Proof.
  intros Hbs Hst. unfold draw_idxes.
  destruct (bs <=? 0)%Z eqn:H0; [apply Z.leb_le in H0; lia|].
  destruct (bs >? _)%Z eqn:H1;
    [rewrite Z.gtb_ltb in H1; apply Z.ltb_lt in H1; lia|].
  destruct (_full b).
  - unfold randint, tensor_mod.
    replace (_buffer_size b <=? 1) with false
      by (symmetry; apply Nat.leb_gt; lia).
    simpl.
    replace (_buffer_size b =? 0) with false
      by (symmetry; apply Nat.eqb_neq; lia).
    by eexists.
  - unfold randint.
    replace (_pos b <=? 0) with false by (symmetry; apply Nat.leb_gt; lia).
    by eexists.
Qed.

Lemma get_samples_ok C E b idx :
  buf_wf C E b → td_wf (_buf b) → 0 < C →
  is_Some (td_items (_buf b) !! "observations"%string) →
  all_idxes (λ r, r < C) idx → Forall (λ row, length row = E) idx →
  ∃ mb, _get_samples b idx = inr mb.
Proof.
  intros (HC & HE & Hshape & Hrows) Hwf HC0 [obs Hobs] Hlt Hcols.
  assert (∀ f x, td_items (_buf b) !! f = Some x →
                 length x = C ∧ Forall (λ row, length row = E) x) as Hfield.
  { intros f x Hx. apply Hwf in Hx. by rewrite Hshape in Hx. }
  destruct (td_gather_ok (_buf b) idx) as [buf Hbuf].
  { intros f x Hx. destruct (Hfield f x Hx).
    by eapply gather_tensor_is_Some. }
  destruct (index_rows_cols_ok C E obs
              ((λ row : list nat, (λ a, a mod C) <$> row) <$>
               ((λ row : list nat, (λ a, a + 1) <$> row) <$> idx)))
    as [nobs Hnobs].
  { by apply (Hfield _ _ Hobs). }
  { by apply (Hfield _ _ Hobs). }
  { apply Forall_fmap, Forall_fmap, Forall_forall. intros row _. simpl.
    apply Forall_fmap, Forall_fmap, Forall_forall. intros a _. simpl.
    apply Nat.mod_upper_bound. lia. }
  { apply Forall_fmap, Forall_fmap.
    eapply Forall_impl; [exact Hcols|]. intros row Hrow. simpl.
    by rewrite !length_fmap. }
  unfold _get_samples.
  rewrite Hbuf. simpl. unfold td_get. rewrite Hobs. simpl.
  unfold tensor_mod, n_envs. rewrite HC, HE.
  replace (C =? 0) with false by (symmetry; apply Nat.eqb_neq; lia).
  simpl. rewrite Hnobs. simpl. by eexists.
Qed.

(** X11: [sample] returns a minibatch on every well-formed buffer that
    stores an [observations] field and holds data, for every batch size
    within [(0, C]]: when [full] with at least two slots, or when not [full]
    with a cursor in [(0, C]]. *)
Theorem sample_returns C E b bs rng :
  buf_wf C E b → td_wf (_buf b) →
  is_Some (td_items (_buf b) !! "observations"%string) →
  (0 < bs ≤ Z.of_nat C)%Z →
  (if full b then 1 < C else 0 < _pos b ≤ C) →
  ∃ mb, sample b bs rng = inr mb.
Proof.
  intros Hb Hwf Hobs Hbs Hst.
  pose proof Hb as (HC & HE & Hshape & _).
  unfold full in Hst.
  destruct (draw_idxes_ok b bs rng) as [idx Hdraw].
  { by rewrite Hshape. }
  { rewrite HC. destruct (_full b); lia. }
  pose proof (draw_idxes_inr b bs rng idx Hdraw) as (_ & Hcols & Hidx).
  unfold n_envs in Hcols. rewrite HE in Hcols. rewrite HC in Hidx.
  unfold sample. rewrite Hdraw. simpl.
  apply (get_samples_ok C E); try done; [lia|].
  eapply Forall_impl; [exact Hidx|]. intros row Hrow.
  eapply Forall_impl; [exact Hrow|]. intros r [_ Hr]. simpl in Hr.
  destruct (_full b); lia.
Qed.

(** X12: a minibatch has shape [[batch_size, n_envs]] and holds the fields
    of the buffer together with [next_obs]. *)
Theorem sample_minibatch_layout b bs rng mb :
  sample b bs rng = inr mb →
  td_shape mb = [Z.to_nat bs; n_envs b] ∧
  dom (td_items mb) = {["next_obs"%string]} ∪ dom (td_items (_buf b)).
Proof.
  unfold sample. intros (idx & Hdraw & Hget)%bind_inr.
  pose proof (draw_idxes_inr b bs rng idx Hdraw) as (Hlen & Hcols & _).
  assert (0 < Z.to_nat bs) as Hpos.
  { unfold draw_idxes in Hdraw.
    destruct (bs <=? 0)%Z eqn:H0; [discriminate|].
    apply Z.leb_gt in H0. lia. }
  apply get_samples_inr in Hget as (buf & obs & nobs & Hbuf & _ & ->).
  apply td_gather_inr in Hbuf as (Hs & Hall & Hlook). simpl. split.
  - rewrite Hs, Hlen. f_equal. f_equal.
    destruct idx as [|row idx]; simpl in *; [lia|].
    by apply Forall_cons in Hcols as [? _].
  - rewrite dom_insert_L. f_equal.
    apply set_eq. intros f. rewrite !elem_of_dom, Hlook.
    destruct (td_items (_buf b) !! f) as [x|] eqn:Hx; simpl.
    + split; [by eauto|]. intros _. by apply (Hall f x).
    + split; intros [? ?]; done.
Qed.

(** X13: a buffer of a single slot cannot be sampled once it is [full]:
    [sample] raises for every batch size. *)
Theorem sample_single_slot_raises b bs rng :
  buffer_size b ≤ 1 → full b = true →
  sample b bs rng = raise ValueError ∨ sample b bs rng = raise RuntimeError.
Proof.
  unfold buffer_size, full. intros HC Hfull.
  unfold sample, draw_idxes. rewrite Hfull.
  destruct (bs <=? 0)%Z; [by left|].
  destruct (bs >? _)%Z; [by left|].
  unfold randint.
  replace (_buffer_size b <=? 1) with true by (symmetry; by apply Nat.leb_le).
  by right.
Qed.

(** X14: [sample] needs the [observations] field: on a buffer that does not
    store it, no call returns a minibatch. *)
Theorem sample_needs_observations b bs rng :
  td_items (_buf b) !! "observations"%string = None →
  ∃ e, sample b bs rng = raise e.
Proof.
  intros Hobs. destruct (sample b bs rng) as [e|mb] eqn:Hs; [by exists e|].
  unfold sample in Hs. apply bind_inr in Hs as (idx & _ & Hget).
  apply get_samples_inr in Hget as (_ & obs & _ & _ & Hobs' & _).
  rewrite Hobs in Hobs'. discriminate.
Qed.

Lemma shift_back r pos C :
  r < C → r ≠ pos mod C →
  let d := (r + C - pos mod C) mod C in
  1 ≤ d < C ∧ (d + pos) mod C = r.
Proof.
  intros Hr Hne. simpl.
  assert (pos mod C < C) as Hp by (apply Nat.mod_upper_bound; lia).
  rewrite <- (Nat.Div0.add_mod_idemp_r _ pos).
  set (p := pos mod C) in *.
  destruct (decide (p < r)) as [Hlt|Hge].
  - replace (r + C - p) with ((r - p) + 1 * C) by lia.
    rewrite Nat.Div0.mod_add, (Nat.mod_small (r - p)) by lia.
    split; [lia|]. replace (r - p + p) with r by lia.
    by apply Nat.mod_small.
  - rewrite (Nat.mod_small (r + C - p)) by lia.
    split; [lia|]. replace (r + C - p + p) with (r + 1 * C) by lia.
    rewrite Nat.Div0.mod_add. by apply Nat.mod_small.
Qed.

(** The outcome of the random draw under which [draw_idxes] yields row [r]
    everywhere. *)
Lemma draw_idxes_const b bs r :
  (0 < bs ≤ Z.of_nat (nth 0 (shape b) 0%nat))%Z →
  (if full b then r < buffer_size b ∧ r ≠ _pos b mod buffer_size b
   else r < _pos b) →
  ∃ rng idx, draw_idxes b bs rng = inr idx ∧
             length idx = Z.to_nat bs ∧
             Forall (λ row, length row = n_envs b) idx ∧
             all_idxes (λ a, a = r) idx.
Proof.
  unfold shape, buffer, full, buffer_size. intros Hbs Hr.
  set (C := _buffer_size b) in *.
  exists (λ _ _, if _full b then (r + C - _pos b mod C) mod C - 1 else r).
  unfold draw_idxes.
  destruct (bs <=? 0)%Z eqn:H0; [apply Z.leb_le in H0; lia|].
  destruct (bs >? _)%Z eqn:H1;
    [rewrite Z.gtb_ltb in H1; apply Z.ltb_lt in H1; lia|].
  destruct (_full b).
  - destruct Hr as [Hr Hne].
    destruct (shift_back r (_pos b) C Hr Hne) as [Hd Hback].
    set (d := (r + C - _pos b mod C) mod C) in *.
    unfold randint, tensor_mod. fold C.
    replace (C <=? 1) with false by (symmetry; apply Nat.leb_gt; lia).
    simpl.
    replace (C =? 0) with false by (symmetry; apply Nat.eqb_neq; lia).
    eexists. split; [done|].
    split; [by rewrite !length_fmap, length_seq|]. split.
    { apply Forall_fmap, Forall_fmap, Forall_fmap, Forall_forall.
      intros i _. simpl. by rewrite !length_fmap, length_seq. }
    apply Forall_fmap, Forall_fmap, Forall_fmap, Forall_forall.
    intros i _. simpl.
    apply Forall_fmap, Forall_fmap, Forall_fmap, Forall_forall.
    intros c _. simpl.
    rewrite (Nat.mod_small (d - 1)) by lia.
    replace (S (d - 1 + _pos b)) with (d + _pos b) by lia. exact Hback.
  - unfold randint.
    replace (_pos b <=? 0) with false by (symmetry; apply Nat.leb_gt; lia).
    eexists. split; [done|].
    split; [by rewrite !length_fmap, length_seq|]. split.
    { apply Forall_fmap, Forall_forall. intros i _. simpl.
      by rewrite !length_fmap, length_seq. }
    apply Forall_fmap, Forall_forall. intros i _. simpl.
    apply Forall_fmap, Forall_forall. intros c _. simpl.
    rewrite Nat.sub_0_r. by apply Nat.mod_small.
Qed.

(** X15: every slot [sample] may draw can be drawn: for each row other than
    the cursor (when [full]) or below it (otherwise) there is an outcome of
    the random draw under which every index of the batch is that row. *)
Theorem sample_can_draw_every_other_slot b bs r :
  (0 < bs ≤ Z.of_nat (nth 0 (shape b) 0%nat))%Z →
  (if full b then r < buffer_size b ∧ r ≠ _pos b mod buffer_size b
   else r < _pos b) →
  ∃ rng idx, draw_idxes b bs rng = inr idx ∧
             length idx = Z.to_nat bs ∧ all_idxes (λ a, a = r) idx.
Proof.
  intros Hbs Hr.
  destruct (draw_idxes_const b bs r Hbs Hr) as (rng & idx & Hd & Hl & _ & Ha).
  by exists rng, idx.
Qed.

(** *** Field access and the cursor *)

(** X16: [__setitem__] moves neither the cursor nor the [full] flag and
    keeps the sizes, so data stored through it alone is not sampled: on a
    buffer that [add] never wrote to, [sample] still raises. *)
Theorem setitem_does_not_fill C td_set b k t b' bs rng :
  __setitem__ td_set b k t = inr b' →
  _pos b' = _pos b ∧ full b' = full b ∧
  buffer_size b' = buffer_size b ∧ n_envs b' = n_envs b ∧
  (_pos b = 0 → full b = false → nth 0 (shape b') 0 = C →
   (0 < bs ≤ Z.of_nat C)%Z → sample b' bs rng = raise RuntimeError).
Proof.
  unfold __setitem__. intros (buf & _ & H)%bind_inr. injection H as <-.
  unfold full, buffer_size, n_envs, shape, buffer. simpl.
  do 4 (split; [done|]). intros Hpos Hfull Hshape Hbs.
  unfold sample, draw_idxes. simpl. rewrite Hshape, Hpos, Hfull.
  destruct (bs <=? 0)%Z eqn:H0; [apply Z.leb_le in H0; lia|].
  destruct (bs >? _)%Z eqn:H1;
    [rewrite Z.gtb_ltb in H1; apply Z.ltb_lt in H1; lia|].
  done.
Qed.

Lemma add_field_absent b d b' s :
  add zero b d = inr b' →
  td_items (_buf b') !! s = None ↔
  td_items (_buf b) !! s = None ∧
  ∀ td, payload_table d = inr td → td_items td !! s = None.
Proof.
  intros (td & buf & Hd & _ & _ & Hset & ->)%add_inr. simpl.
  rewrite (td_setitem_lookup _ _ _ _ s Hset). unfold setitem_field. split.
  - intros H. destruct (td_items td !! s) eqn:Hs; [discriminate|].
    split; [done|]. intros td' Hd'. rewrite Hd in Hd'. by injection Hd' as <-.
  - intros [Hold Hnew]. by rewrite (Hnew td Hd).
Qed.

Lemma add_all_field_absent ds s : ∀ b b',
  add_all zero b ds = inr b' →
  td_items (_buf b') !! s = None ↔
  td_items (_buf b) !! s = None ∧
  Forall (λ d, ∀ td, payload_table d = inr td → td_items td !! s = None) ds.
Proof.
  induction ds as [|d ds IH]; simpl; intros b b' H.
  - injection H as <-. split; [by intros ?; split|by intros [? _]].
  - apply bind_inr in H as (b1 & Hadd & H).
    rewrite (IH b1 b' H), (add_field_absent b d b1 s Hadd), Forall_cons.
    tauto.
Qed.

(** X17: the fields of a buffer are those its payloads carried: after any
    run of successful [add] calls on a fresh buffer, [self[s]] raises
    [KeyError] exactly for the names [s] that no payload carried, and
    returns the field otherwise. *)
Theorem getitem_key_error C E dev ds b s :
  add_all zero (__init__ C E dev) ds = inr b →
  (__getitem__ b (KStr s) = raise KeyError ↔
   Forall (λ d, ∀ td, payload_table d = inr td → td_items td !! s = None) ds)
  ∧ (__getitem__ b (KStr s) = raise KeyError ∨
     ∃ x, __getitem__ b (KStr s) = inr x ∧ length x = C).
Proof.
  intros Hrun.
  pose proof (add_all_field_absent ds s _ _ Hrun) as Habs.
  simpl in Habs. rewrite lookup_empty in Habs.
  apply reachable_invariants in Hrun as [(_ & _ & _ & Hrows) _].
  unfold __getitem__, td_get.
  destruct (td_items (_buf b) !! s) as [x|] eqn:Hx.
  - split.
    + split; [discriminate|]. intros HF.
      pose proof (proj2 Habs (conj eq_refl HF)). discriminate.
    + right. exists x. split; [done|]. by apply Hrows in Hx.
  - split; [|by left]. split; [|done].
    intros _. by apply Habs.
Qed.

Lemma get_samples_next_obs b idx mb :
  _get_samples b idx = inr mb →
  ∃ obs nobs,
    td_items (_buf b) !! "observations"%string = Some obs ∧
    td_items mb !! "next_obs"%string = Some nobs ∧
    ∀ i c r, idx !! i ≫= (.!! c) = Some r →
      ∃ e, tensor_at nobs i c = Some e ∧
           tensor_at obs ((r + 1) mod _buffer_size b) c = Some e.
Proof.
  unfold _get_samples. intros (buf & _ & H)%bind_inr.
  apply bind_inr in H as (obs & Hobs & H).
  apply bind_inr in H as (next & Hnext & H).
  apply bind_inr in H as (nobs & Hnobs & H). injection H as <-.
  unfold td_get in Hobs.
  destruct (td_items (_buf b) !! "observations"%string) as [obs'|] eqn:Hl;
    [|discriminate].
  injection Hobs as ->.
  apply tensor_mod_inr in Hnext as (_ & ->).
  exists obs, nobs. split; [done|]. split; [apply lookup_insert_eq|].
  intros i c r Hr.
  destruct (idx !! i) as [row|] eqn:Hi; [|discriminate]. simpl in Hr.
  eapply (index_rows_cols_inr _ _ _ _ Hnobs i c).
  - rewrite !list_lookup_fmap, Hi. reflexivity.
  - rewrite !list_lookup_fmap, Hr. reflexivity.
Qed.

(** X18: the row just before the cursor, the one written last, can be
    drawn, and the [next_obs] a minibatch gives for it is read from the slot
    at the cursor, [pos mod C]: the oldest stored row when the buffer is
    [full], a slot no [add] has reached yet otherwise. *)
Theorem newest_row_next_obs_from_cursor_slot C E b bs :
  buf_wf C E b → td_wf (_buf b) →
  is_Some (td_items (_buf b) !! "observations"%string) →
  (0 < bs ≤ Z.of_nat C)%Z →
  (if full b then 1 < C else 0 < _pos b < C) →
  let r := if _pos b mod C =? 0 then C - 1 else _pos b mod C - 1 in
  ∃ rng idx mb obs nobs,
    draw_idxes b bs rng = inr idx ∧ all_idxes (λ a, a = r) idx ∧
    sample b bs rng = inr mb ∧
    td_items (_buf b) !! "observations"%string = Some obs ∧
    td_items mb !! "next_obs"%string = Some nobs ∧
    ∀ i c, i < Z.to_nat bs → c < E →
      ∃ e, tensor_at nobs i c = Some e ∧
           tensor_at obs (_pos b mod C) c = Some e.
Proof.
  intros Hb Hwf Hobs Hbs Hst r.
  pose proof Hb as (HC & HE & Hshape & _).
  assert (0 < C) as HC0 by lia.
  assert (_pos b mod C < C) as Hp by (apply Nat.mod_upper_bound; lia).
  assert (r < C ∧ (r + 1) mod C = _pos b mod C) as [Hr Hnext].
  { unfold r. destruct (_ =? 0) eqn:Hz.
    - apply Nat.eqb_eq in Hz. rewrite Hz. split; [lia|].
      replace (C - 1 + 1) with C by lia. apply Nat.Div0.mod_same.
    - apply Nat.eqb_neq in Hz. split; [lia|].
      replace (_pos b mod C - 1 + 1) with (_pos b mod C) by lia.
      by apply Nat.mod_small. }
  destruct (draw_idxes_const b bs r) as (rng & idx & Hdraw & Hlen & Hcols & Hall).
  { unfold shape, buffer. by rewrite Hshape. }
  { unfold full, buffer_size in *. rewrite HC.
    destruct (_full b).
    - split; [done|]. unfold r. destruct (_ =? 0) eqn:Hz.
      + apply Nat.eqb_eq in Hz. lia.
      + apply Nat.eqb_neq in Hz. lia.
    - unfold r. rewrite (Nat.mod_small (_pos b)) by lia.
      destruct (_pos b =? 0) eqn:Hz;
        [apply Nat.eqb_eq in Hz; lia|apply Nat.eqb_neq in Hz; lia]. }
  unfold n_envs in Hcols. rewrite HE in Hcols.
  destruct (get_samples_ok C E b idx Hb Hwf HC0 Hobs) as [mb Hmb].
  { eapply Forall_impl; [exact Hall|]. intros row Hrow.
    eapply Forall_impl; [exact Hrow|]. by intros a ->. }
  { done. }
  destruct (get_samples_next_obs b idx mb Hmb) as (obs & nobs & Ho & Hn & Hat).
  exists rng, idx, mb, obs, nobs.
  split; [done|]. split; [done|].
  split; [unfold sample; by rewrite Hdraw|].
  split; [done|]. split; [done|].
  intros i c Hi Hc.
  destruct (lookup_lt_is_Some_2 idx i ltac:(lia)) as [row Hrow].
  pose proof (Forall_lookup_1 _ _ _ _ Hcols Hrow) as Hw. simpl in Hw.
  destruct (lookup_lt_is_Some_2 row c ltac:(lia)) as [a Ha].
  assert (a = r) as ->.
  { apply (Forall_lookup_1 (λ a, a = r) row c a); [|done].
    exact (Forall_lookup_1 (Forall (λ a, a = r)) idx i row Hall Hrow). }
  destruct (Hat i c r) as (e & He & Hx).
  { by rewrite Hrow. }
  exists e. split; [done|]. by rewrite HC, Hnext in Hx.
Qed.

End Properties.

(** ** The claims at concrete inputs *)

(** Scenarios 1 and 2 lead to [wrapped4]. *)
Example wrapped4_reachable :
  add_all 0%Z fresh4 (one_by_one ++ [obs_rows [4%Z]]) = inr wrapped4.
Proof. vm_compute. reflexivity. Qed.

Lemma len_is_capacity_witness :
  ∃ b, add_all 0%Z fresh4 one_by_one = inr b ∧ __len__ b = 4.
Proof.
  destruct (add_all 0%Z fresh4 one_by_one) as [e|b] eqn:Hrun.
  - vm_compute in Hrun. discriminate.
  - exists b. split; [reflexivity|].
    exact (len_is_capacity 0%Z 4 1 "cpu" one_by_one b Hrun).
Defined.

(** C5 fails on the code: one [add] of four rows to a fresh buffer of
    capacity four stores the end of the written range as the cursor and
    leaves it at 4, outside [[0, 4)]; from there a second [add] of four rows
    raises, where the same call at cursor 0 is accepted. *)
Lemma cursor_reaches_capacity :
  ∃ b, add 0%Z fresh4 (obs_rows [0; 1; 2; 3]%Z) = inr b ∧
       _buffer_size b = 4 ∧ ¬ (_pos b < _buffer_size b) ∧
       add 0%Z b (obs_rows [4; 5; 6; 7]%Z) = raise RuntimeError.
Proof.
  eexists. split; [vm_compute; reflexivity|]. split; [reflexivity|].
  split; [vm_compute; lia|]. vm_compute. reflexivity.
Qed.

Lemma full_iff_capacity_reached_witness :
  ∃ b, add_all 0%Z fresh4 one_by_one = inr b ∧
       (full b = true ↔ 4 ≤ total_len one_by_one).
Proof.
  destruct (add_all 0%Z fresh4 one_by_one) as [e|b] eqn:Hrun.
  - vm_compute in Hrun. discriminate.
  - exists b. split; [reflexivity|].
    refine (proj1 (full_iff_capacity_reached 0%Z 4 1 "cpu" one_by_one b _ Hrun)).
    discriminate.
Defined.

(** Scenario 4: a payload over two environments into a buffer over one. *)
Lemma add_shape_error_witness :
  add 0%Z fresh4 (PTensorDict two_envs_row) = raise RuntimeError.
Proof.
  refine (proj2 (add_shape_error 0%Z 4 1 fresh4 (PTensorDict two_envs_row)
                   two_envs_row eq_refl) _ _ _ _).
  - apply init_buf_wf.
  - lia.
  - vm_compute. lia.
  - vm_compute. lia.
Defined.

(** C6, as stated, fails: a payload over one environment is taken by a
    buffer over two, its entry stored in both columns. *)
Lemma add_broadcasts_single_env :
  ∃ b y, add 0%Z fresh4x2 (PTensorDict one_env_row) = inr b ∧ _pos b = 1 ∧
         td_items (_buf b) !! "observations"%string = Some y ∧
         y !! 0 = Some [7; 7]%Z.
Proof.
  eexists _, _. split; [vm_compute; reflexivity|]. split; [reflexivity|].
  split; [vm_compute; reflexivity|]. reflexivity.
Qed.

(** C7, as stated, fails: five rows into a fresh buffer of capacity four
    are not written with wraparound, [add] raises. *)
Lemma add_five_rows_raises :
  add 0%Z fresh4 (obs_rows [0; 1; 2; 3; 4]%Z) = raise RuntimeError ∧
  ¬ ∃ b, add 0%Z fresh4 (obs_rows [0; 1; 2; 3; 4]%Z) = inr b.
Proof.
  assert (add 0%Z fresh4 (obs_rows [0; 1; 2; 3; 4]%Z) = raise RuntimeError)
    as H by (vm_compute; reflexivity).
  split; [exact H|]. intros [b Hb]. rewrite H in Hb. discriminate.
Qed.

Lemma add_longer_than_capacity_raises_witness :
  4 < data_len (obs_rows [0; 1; 2; 3; 4]%Z) ∧
  (add 0%Z fresh4 (obs_rows [0; 1; 2; 3; 4]%Z) = raise RuntimeError ∨
   add 0%Z fresh4 (obs_rows [0; 1; 2; 3; 4]%Z) = raise IndexError ∨
   add 0%Z fresh4 (obs_rows [0; 1; 2; 3; 4]%Z) = raise ZeroDivisionError).
Proof.
  assert (4 < data_len (obs_rows [0; 1; 2; 3; 4]%Z)) as H by (simpl; lia).
  split; [exact H|].
  refine (add_longer_than_capacity_raises 0%Z 4 1 fresh4
            (obs_rows [0; 1; 2; 3; 4]%Z) (obs_table [0; 1; 2; 3; 4]%Z)
            (init_buf_wf 4 1 "cpu") eq_refl _ H).
  apply (lookup_ne_empty _ "observations"%string
           (map (λ n, [n]) [0; 1; 2; 3; 4]%Z)).
  reflexivity.
Defined.

Lemma sample_empty_raises_witness :
  sample fresh4 1 (λ i c, i + c) = raise RuntimeError.
Proof.
  refine (sample_empty_raises 4 1 fresh4 1 _ (init_buf_wf 4 1 "cpu") _ _ _).
  - reflexivity.
  - reflexivity.
  - lia.
Defined.

Lemma sample_never_draws_pos_witness :
  ∃ mb idx, sample wrapped4 3 (λ i c, i + 5) = inr mb ∧
            draw_idxes wrapped4 3 (λ i c, i + 5) = inr idx ∧
            length idx = 3 ∧ all_idxes (λ r, r ≠ 1) idx.
Proof.
  destruct (sample wrapped4 3 (λ i c, i + 5)) as [e|mb] eqn:Hs.
  - vm_compute in Hs. discriminate.
  - destruct (sample_never_draws_pos wrapped4 3 _ mb Hs)
      as (idx & Hd & _ & Hlen & _ & Hall).
    exists mb, idx. split; [reflexivity|]. split; [exact Hd|].
    split; [exact Hlen|].
    eapply Forall_impl; [exact Hall|]. intros row Hrow.
    eapply Forall_impl; [exact Hrow|]. intros r Hr. exact (proj1 Hr).
Defined.

Lemma next_obs_is_shifted_obs_witness :
  ∃ mb nobs, sample wrapped4 3 (λ i c, i + 5) = inr mb ∧
             td_items mb !! "next_obs"%string = Some nobs ∧
             ∃ e, tensor_at nobs 0 0 = Some e.
Proof.
  destruct (sample wrapped4 3 (λ i c, i + 5)) as [e|mb] eqn:Hs.
  - vm_compute in Hs. discriminate.
  - destruct (next_obs_is_shifted_obs wrapped4 3 _ mb Hs)
      as (idx & obs & nobs & Hd & _ & Hn & Hat).
    exists mb, nobs. split; [reflexivity|]. split; [exact Hn|].
    assert (idx !! 0 ≫= (.!! 0) = Some 0) as H0.
    { vm_compute in Hd. injection Hd as <-. reflexivity. }
    destruct (Hat 0 0 0 H0) as (e & He & _). by exists e.
Defined.

(** Scenario 2: a fifth row after four overwrites slot 0 only. *)
Lemma add_after_exact_fill_witness :
  add_all 0%Z fresh4 one_by_one = inr filled4 ∧
  ∃ b', add 0%Z filled4 (obs_rows [4%Z]) = inr b' ∧ _pos b' = 1.
Proof.
  assert (add_all 0%Z fresh4 one_by_one = inr filled4) as Hrun
    by (vm_compute; reflexivity).
  split; [exact Hrun|].
  destruct (add 0%Z filled4 (obs_rows [4%Z])) as [e|b'] eqn:Hadd;
    [vm_compute in Hadd; discriminate|].
  exists b'. split; [reflexivity|].
  refine (proj1 (add_after_exact_fill 0%Z 4 1 "cpu" one_by_one filled4
                   (obs_rows [4%Z]) _ b' 1 Hrun _ eq_refl _ _ _ Hadd)).
  - reflexivity.
  - apply map_Forall_singleton. split; [reflexivity|].
    repeat constructor.
  - reflexivity.
  - lia.
Defined.

(** A one-component tuple is refused by [__getitem__] and stored by
    [__setitem__]. *)
Lemma setitem_has_no_key_check_witness :
  __getitem__ wrapped4 (KTuple ["observations"%string]) = raise TypeError ∧
  ∃ b', __setitem__ flat_set wrapped4 (KTuple ["observations"%string])
                    [[9]; [9]; [9]; [9]]%Z = inr b' ∧
        td_items (_buf b') !! "observations"%string
          = Some [[9]; [9]; [9]; [9]]%Z.
Proof.
  destruct (setitem_has_no_key_check flat_set wrapped4
              (KTuple ["observations"%string]) [[9]; [9]; [9]; [9]]%Z _
              eq_refl eq_refl) as [Hget (b' & Hset & Hbuf)].
  split; [exact Hget|]. exists b'. split; [exact Hset|].
  rewrite Hbuf. apply lookup_insert_eq.
Defined.

(** ** Further properties at concrete inputs *)


Lemma add_full_payload_off_zero_witness :
  add 0%Z wrapped4 (obs_rows [5; 6; 7; 8]%Z) = raise RuntimeError.
Proof.
  refine (proj1 (add_full_payload_off_zero 0%Z wrapped4
                   (obs_rows [5; 6; 7; 8]%Z)
                   (obs_table [5; 6; 7; 8]%Z) eq_refl _ _) _).
  - reflexivity.
  - simpl. lia.
  - simpl. lia.
Defined.

Lemma add_zero_capacity_raises_witness :
  add 0%Z (__init__ 0 1 "cpu") (obs_rows [5%Z]) = raise ZeroDivisionError.
Proof.
  refine (proj2 (add_zero_capacity_raises 0%Z (__init__ 0 1 "cpu")
                   (obs_rows [5%Z]) eq_refl) (obs_table [5%Z]) eq_refl eq_refl).
Defined.

(** Three rows at cursor 3 of a capacity-4 buffer land at slots 3, 0, 1. *)
Lemma add_writes_wrapping_witness :
  ∃ b' y, add 0%Z three_then_one (obs_rows [7; 8; 9]%Z) = inr b' ∧
          td_items (_buf b') !! "observations"%string = Some y ∧
          y !! 3 = Some [7%Z] ∧ y !! 0 = Some [8%Z] ∧ y !! 1 = Some [9%Z].
Proof.
  destruct (add 0%Z three_then_one (obs_rows [7; 8; 9]%Z)) as [e|b'] eqn:Hadd;
    [vm_compute in Hadd; discriminate|].
  destruct (add_writes_wrapping 0%Z 4 1 three_then_one
              (obs_rows [7; 8; 9]%Z) (obs_table [7; 8; 9]%Z) b')
    with (f := "observations"%string) (v := [[7]; [8]; [9]]%Z)
    as (y & Hy & Hrow).
  - repeat split. apply map_Forall_singleton. reflexivity.
  - simpl. lia.
  - reflexivity.
  - apply map_Forall_singleton. split; [reflexivity|]. repeat constructor.
  - exact Hadd.
  - reflexivity.
  - exists b', y. split; [reflexivity|]. split; [exact Hy|].
    split; [exact (Hrow 0 ltac:(simpl; lia))|].
    split; [exact (Hrow 1 ltac:(simpl; lia))|exact (Hrow 2 ltac:(simpl; lia))].
Defined.

Lemma add_keeps_other_slots_witness :
  ∃ b' y, add 0%Z three_then_one (obs_rows [7; 8; 9]%Z) = inr b' ∧
          td_items (_buf b') !! "observations"%string = Some y ∧
          y !! 2 = Some [2%Z].
Proof.
  destruct (add 0%Z three_then_one (obs_rows [7; 8; 9]%Z)) as [e|b'] eqn:Hadd;
    [vm_compute in Hadd; discriminate|].
  destruct (add_keeps_other_slots 0%Z 4 1 three_then_one
              (obs_rows [7; 8; 9]%Z) b')
    with (f := "observations"%string) (x := [[0]; [1]; [2]; [0]]%Z)
    as (y & Hy & Hrow).
  - repeat split. apply map_Forall_singleton. reflexivity.
  - simpl. lia.
  - exact Hadd.
  - reflexivity.
  - exists b', y. split; [reflexivity|]. split; [exact Hy|].
    rewrite (Hrow 2); [reflexivity|].
    intros j Hj. simpl in Hj.
    destruct j as [|[|[|j]]]; [discriminate..|lia].
Defined.

Lemma add_creates_fields_witness :
  ∃ b' y, add 0%Z three_then_one reward_row = inr b' ∧
          td_items (_buf b') !! "rewards"%string = Some y ∧
          length y = 4 ∧ y !! 0 = Some [0%Z].
Proof.
  destruct (add 0%Z three_then_one reward_row) as [e|b'] eqn:Hadd;
    [vm_compute in Hadd; discriminate|].
  destruct (add_creates_fields 0%Z 4 1 three_then_one reward_row
              reward_table b') as [_ Hnew].
  - repeat split. apply map_Forall_singleton. reflexivity.
  - simpl. lia.
  - reflexivity.
  - exact Hadd.
  - destruct (Hnew "rewards"%string) as (y & Hy & Hlen & Hz).
    + reflexivity.
    + by eexists.
    + exists b', y. split; [reflexivity|]. split; [exact Hy|].
      split; [exact Hlen|]. apply (Hz 0); [lia|].
      intros j Hj. simpl in Hj. destruct j as [|j]; [discriminate|lia].
Defined.

Example three_then_one_reachable :
  add_all 0%Z fresh4 [obs_rows [0; 1; 2]%Z] = inr three_then_one.
Proof. vm_compute. reflexivity. Qed.

Lemma add_keeps_shape_witness :
  ∃ b', add 0%Z three_then_one reward_row = inr b' ∧
        buffer_size b' = 4 ∧ td_wf (_buf b').
Proof.
  destruct (add 0%Z three_then_one reward_row) as [e|b'] eqn:Hadd;
    [vm_compute in Hadd; discriminate|].
  destruct (add_keeps_shape 0%Z 4 1 three_then_one reward_row
              reward_table b') as (HC & _ & _ & _ & _ & Hwf).
  - repeat split. apply map_Forall_singleton. reflexivity.
  - apply map_Forall_singleton. split; [reflexivity|]. repeat constructor.
  - reflexivity.
  - apply map_Forall_singleton. split; [reflexivity|]. repeat constructor.
  - exact Hadd.
  - exists b'. split; [reflexivity|]. split; [exact HC|exact Hwf].
Defined.

Lemma rows_read_back_witness :
  ∃ y, add_all 0%Z fresh4 one_by_one = inr filled4 ∧
       __getitem__ filled4 (KStr "observations") = inr y ∧
       take 4 y = [[0]; [1]; [2]; [3]]%Z.
Proof.
  assert (add_all 0%Z fresh4 one_by_one = inr filled4) as Hrun
    by (vm_compute; reflexivity).
  destruct (rows_read_back 0%Z 4 1 "cpu" one_by_one filled4
              "observations"%string Hrun) as (y & Hy & _ & Htake).
  - discriminate.
  - repeat constructor;
      (eexists; split; [reflexivity|]; split;
       [apply map_Forall_singleton; split; [reflexivity|]; repeat constructor
       |by eexists]).
  - simpl. lia.
  - exists y. split; [exact Hrun|]. split; [exact Hy|exact Htake].
Defined.

(** Scenario 5. *)
Lemma sample_bad_batch_size_witness :
  sample wrapped4 5 (λ i c, i + c) = raise ValueError.
Proof.
  apply sample_bad_batch_size. right. simpl. lia.
Defined.

Lemma sample_gathers_fields_witness :
  ∃ mb y, sample wrapped4 3 (λ i c, i + 5) = inr mb ∧
          td_items mb !! "observations"%string = Some y ∧
          tensor_at y 0 0 = Some 4%Z.
Proof.
  destruct (sample wrapped4 3 (λ i c, i + 5)) as [e|mb] eqn:Hs.
  - vm_compute in Hs. discriminate.
  - destruct (sample_gathers_fields wrapped4 3 _ mb Hs) as (idx & Hd & Hf).
    destruct (Hf "observations"%string [[4]; [1]; [2]; [3]]%Z)
      as (y & Hy & Hat); [discriminate|reflexivity|].
    exists mb, y. split; [reflexivity|]. split; [exact Hy|].
    assert (idx !! 0 ≫= (.!! 0) = Some 0) as H0.
    { vm_compute in Hd. injection Hd as <-. reflexivity. }
    destruct (Hat 0 0 0 H0) as (e & He & Hx).
    rewrite He. rewrite <- Hx. reflexivity.
Defined.

Lemma sample_returns_witness :
  ∃ mb, sample three_then_one 2 (λ i c, i + c) = inr mb.
Proof.
  apply (sample_returns 4 1).
  - repeat split. apply map_Forall_singleton. reflexivity.
  - apply map_Forall_singleton. split; [reflexivity|]. repeat constructor.
  - by eexists.
  - lia.
  - simpl. lia.
Defined.

Lemma sample_minibatch_layout_witness :
  ∃ mb, sample wrapped4 3 (λ i c, i + 5) = inr mb ∧ td_shape mb = [3; 1].
Proof.
  destruct (sample wrapped4 3 (λ i c, i + 5)) as [e|mb] eqn:Hs.
  - vm_compute in Hs. discriminate.
  - exists mb. split; [reflexivity|].
    exact (proj1 (sample_minibatch_layout wrapped4 3 _ mb Hs)).
Defined.

Lemma sample_single_slot_raises_witness :
  sample single_slot 1 (λ i c, i + c) = raise ValueError ∨
  sample single_slot 1 (λ i c, i + c) = raise RuntimeError.
Proof.
  apply sample_single_slot_raises; [simpl; lia|reflexivity].
Defined.

Lemma sample_needs_observations_witness :
  ∃ e, sample rewards_only 1 (λ i c, i + c) = raise e.
Proof.
  apply sample_needs_observations. reflexivity.
Defined.

Example single_slot_reachable :
  add_all 0%Z (__init__ 1 1 "cpu") [obs_rows [7%Z]] = inr single_slot.
Proof. vm_compute. reflexivity. Qed.

Example rewards_only_reachable :
  add_all 0%Z fresh4 [reward_row] = inr rewards_only.
Proof. vm_compute. reflexivity. Qed.

(** Slot 0 of [wrapped4] (cursor 1) can be drawn. *)
Lemma sample_can_draw_every_other_slot_witness :
  ∃ rng idx, draw_idxes wrapped4 3 rng = inr idx ∧ length idx = 3 ∧
             all_idxes (λ a, a = 0) idx.
Proof.
  apply (sample_can_draw_every_other_slot wrapped4 3 0).
  - simpl. lia.
  - simpl. split; [lia|discriminate].
Defined.

Lemma setitem_does_not_fill_witness :
  ∃ b', __setitem__ flat_set fresh4 (KStr "observations")
                    [[1]; [2]; [3]; [4]]%Z = inr b' ∧
        sample b' 1 (λ i c, i + c) = raise RuntimeError.
Proof.
  destruct (__setitem__ flat_set fresh4 (KStr "observations")
              [[1]; [2]; [3]; [4]]%Z) as [e|b'] eqn:Hset;
    [vm_compute in Hset; discriminate|].
  exists b'. split; [reflexivity|].
  destruct (setitem_does_not_fill 4 flat_set fresh4 _ _ b' 1 (λ i c, i + c)
              Hset) as (_ & _ & _ & _ & Hs).
  apply Hs; [reflexivity|reflexivity| |lia].
  vm_compute in Hset. injection Hset as <-. reflexivity.
Defined.

Lemma getitem_key_error_witness :
  add_all 0%Z fresh4 one_by_one = inr filled4 ∧
  __getitem__ filled4 (KStr "rewards") = raise KeyError.
Proof.
  assert (add_all 0%Z fresh4 one_by_one = inr filled4) as Hrun
    by (vm_compute; reflexivity).
  split; [exact Hrun|].
  apply (proj1 (getitem_key_error 0%Z 4 1 "cpu" one_by_one filled4
                  "rewards"%string Hrun)).
  repeat constructor; intros td [= <-]; reflexivity.
Defined.

(** In [wrapped4] the row written last is slot 0; its [next_obs] is slot 1,
    the oldest row. *)
Lemma newest_row_next_obs_from_cursor_slot_witness :
  ∃ rng mb nobs, sample wrapped4 1 rng = inr mb ∧
                 td_items mb !! "next_obs"%string = Some nobs ∧
                 tensor_at nobs 0 0 = Some 1%Z.
Proof.
  destruct (newest_row_next_obs_from_cursor_slot 4 1 wrapped4 1)
    as (rng & idx & mb & obs & nobs & _ & _ & Hs & Hobs & Hn & Hat).
  - repeat split. apply map_Forall_singleton. reflexivity.
  - apply map_Forall_singleton. split; [reflexivity|]. repeat constructor.
  - by eexists.
  - lia.
  - simpl. lia.
  - exists rng, mb, nobs. split; [exact Hs|]. split; [exact Hn|].
    destruct (Hat 0 0) as (e & He & Hx); [simpl; lia|lia|].
    rewrite He, <- Hx.
    assert (obs = [[4]; [1]; [2]; [3]]%Z) as ->
      by (injection Hobs as <-; reflexivity).
    reflexivity.
Defined.

Lemma add_empty_payload_raises_witness :
  add 0%Z wrapped4 (obs_rows []) = raise IndexError.
Proof.
  refine (add_empty_payload_raises 0%Z 4 1 wrapped4 (obs_rows [])
            (obs_table []) 1 _ _ _ eq_refl eq_refl _ _).
  - repeat split. apply map_Forall_singleton. reflexivity.
  - lia.
  - simpl. lia.
  - by left.
  - apply (lookup_ne_empty _ "observations"%string []). reflexivity.
Defined.
